(** * The Kubernetes scanner of defsec: scan orchestration and engine lifecycle

    A shallow embedding of [pkg/scanners/kubernetes/scanner.go].

    The scanner drives three collaborators that live outside that file: the
    manifest parser ([pkg/scanners/kubernetes/parser]), the rego evaluation
    engine ([pkg/rego]) and the in-memory filesystem ([liamg/memoryfs]).  They
    are interfaces of the development ([Types], [Collaborators]); the code of
    [scanner.go] is translated statement by statement on top of them.

    Conventions.
    - A Go pointer that may be nil is an [option]; a Go [error] is an
      [option Err] ([None] is the nil error); a Go slice is a [list] (the nil
      slice is [[]]); a Go map with string keys is a [gmap string _].
    - The receiver [s *Scanner] is mutated in place: every method takes the
      scanner and the world and returns them.
    - Everything outside the scanner is an abstract state [Ext] that each
      collaborator call reads and updates.  The [World] adds a chronological
      log of the collaborator calls made by the scanner, and the number of
      engines allocated so far, which gives each new engine its address. *)

From Stdlib Require Strings.Byte.
From stdpp Require Import gmap strings list fin_maps.

Set Default Proof Using "Type".

(** ** Values that cross the boundary *)

(** The Go types the scanner only passes around. *)
Class Types := {
  FS : Type;          (* io/fs.FS: a handle on a file tree *)
  Doc : Type;         (* interface{}: one parsed manifest *)
  Err : Type;         (* the non-nil values of error *)
  Ctx : Type;         (* context.Context *)
  Reader : Type;      (* io.Reader *)
  Writer : Type;      (* io.Writer *)
  Framework : Type;   (* framework.Framework *)
  MemFS : Type;       (* the contents of a *memoryfs.FS *)
  Ext : Type;         (* the state of everything outside the scanner *)
}.

(** Address of a [rego.Scanner]. *)
Definition EnginePtr := nat.

Section Data.
Context `{T : Types}.

(** [debug.Logger]: the zero value, or the result of [debug.New]. *)
Inductive Logger :=
| LoggerZero
| LoggerNew (w : Writer) (prefix : list string).

(** The methods of [options.ConfigurableScanner] as [*Scanner] implements
    them.  A [ScannerOption] is a closure over that interface: it is the
    sequence of setter calls it makes. *)
Inductive Setter :=
| CallSetSpec (spec : string)
| CallSetRegoOnly (b : bool)
| CallSetFrameworks (frameworks : list Framework)
| CallSetUseEmbeddedPolicies (b : bool)
| CallSetPolicyReaders (readers : list Reader)
| CallSetSkipRequiredCheck (skip : bool)
| CallSetDebugWriter (writer : Writer)
| CallSetTraceWriter (writer : Writer)
| CallSetPerResultTracingEnabled (b : bool)
| CallSetPolicyDirs (dirs : list string)
| CallSetDataDirs (dirs : list string)
| CallSetPolicyNamespaces (namespaces : list string)
| CallSetPolicyFilesystem (f : FS)
| CallSetDataFilesystem (f : FS).

Definition ScannerOption := list Setter.

(** [options.ParserOption] and [*parser.Parser]: a parser is what
    [parser.New] was given. *)
Inductive ParserOption :=
| ParserWithSkipRequiredCheck (skip : bool).

Inductive Parser :=
| ParserNew (opts : list ParserOption).

(** [rego.Input]. *)
Record Input := {
  Path : string;
  InputFS : FS;
  Contents : Doc;
}.

(** Findings.  [scan.Results] is a slice of findings. *)
Inductive Status := StatusPassed | StatusFailed | StatusError.

Record Provenance := {
  sourceLabel : string;
  fsRef : FS;
  mixedFS : bool;
}.

Record Finding := {
  status : Status;
  ruleID : string;
  provenance : option Provenance;
}.

Definition Results := list Finding.

(** Modelled from the spec: [scan.Results.SetSourceAndFilesystem] is defined
    in [pkg/scan], outside the files at hand.  Per the data model of the
    specification, a finding carries a status, a rule identifier and the
    provenance fields (source label, filesystem reference, mixed-filesystem
    flag); the call writes the three provenance fields of every finding and
    leaves status and rule identifier alone. *)
Definition SetSourceAndFilesystem (source : string) (f : FS) (mixed : bool)
    (r : Results) : Results :=
  map (fun x => {| status := status x; ruleID := ruleID x;
                   provenance := Some {| sourceLabel := source; fsRef := f;
                                         mixedFS := mixed |} |}) r.

(** ** The scanner *)

(** [type Scanner struct].  The embedded [sync.Mutex] is not a field here:
    the methods below are the sequential semantics, in which the mutex is
    free at every call and free again at every return.  The mutex is explicit
    in the interleaving semantics of section [Concurrent]. *)
Record Scanner := {
  debug : Logger;
  options : list ScannerOption;
  policyDirs : list string;
  policyReaders : list Reader;
  regoScanner : option EnginePtr;
  parser : option Parser;
  skipRequired : bool;
  loadEmbedded : bool;
  frameworks : list Framework;
  spec : string;
}.

Definition SetSpec (v : string) (s : Scanner) : Scanner :=
  {| debug := debug s; options := options s; policyDirs := policyDirs s;
     policyReaders := policyReaders s; regoScanner := regoScanner s;
     parser := parser s; skipRequired := skipRequired s;
     loadEmbedded := loadEmbedded s; frameworks := frameworks s;
     spec := v |}.

Definition SetRegoOnly (_ : bool) (s : Scanner) : Scanner := s.

Definition SetFrameworks (v : list Framework) (s : Scanner) : Scanner :=
  {| debug := debug s; options := options s; policyDirs := policyDirs s;
     policyReaders := policyReaders s; regoScanner := regoScanner s;
     parser := parser s; skipRequired := skipRequired s;
     loadEmbedded := loadEmbedded s; frameworks := v;
     spec := spec s |}.

Definition SetUseEmbeddedPolicies (b : bool) (s : Scanner) : Scanner :=
  {| debug := debug s; options := options s; policyDirs := policyDirs s;
     policyReaders := policyReaders s; regoScanner := regoScanner s;
     parser := parser s; skipRequired := skipRequired s;
     loadEmbedded := b; frameworks := frameworks s;
     spec := spec s |}.

Definition SetPolicyReaders (readers : list Reader) (s : Scanner) : Scanner :=
  {| debug := debug s; options := options s; policyDirs := policyDirs s;
     policyReaders := readers; regoScanner := regoScanner s;
     parser := parser s; skipRequired := skipRequired s;
     loadEmbedded := loadEmbedded s; frameworks := frameworks s;
     spec := spec s |}.

Definition SetSkipRequiredCheck (skip : bool) (s : Scanner) : Scanner :=
  {| debug := debug s; options := options s; policyDirs := policyDirs s;
     policyReaders := policyReaders s; regoScanner := regoScanner s;
     parser := parser s; skipRequired := skip;
     loadEmbedded := loadEmbedded s; frameworks := frameworks s;
     spec := spec s |}.

Definition SetDebugWriter (writer : Writer) (s : Scanner) : Scanner :=
  {| debug := LoggerNew writer ["kubernetes"; "scanner"];
     options := options s; policyDirs := policyDirs s;
     policyReaders := policyReaders s; regoScanner := regoScanner s;
     parser := parser s; skipRequired := skipRequired s;
     loadEmbedded := loadEmbedded s; frameworks := frameworks s;
     spec := spec s |}.

Definition SetTraceWriter (_ : Writer) (s : Scanner) : Scanner := s.

Definition SetPerResultTracingEnabled (_ : bool) (s : Scanner) : Scanner := s.

Definition SetPolicyDirs (dirs : list string) (s : Scanner) : Scanner :=
  {| debug := debug s; options := options s; policyDirs := dirs;
     policyReaders := policyReaders s; regoScanner := regoScanner s;
     parser := parser s; skipRequired := skipRequired s;
     loadEmbedded := loadEmbedded s; frameworks := frameworks s;
     spec := spec s |}.

Definition SetDataDirs (_ : list string) (s : Scanner) : Scanner := s.

Definition SetPolicyNamespaces (_ : list string) (s : Scanner) : Scanner := s.

Definition SetPolicyFilesystem (_ : FS) (s : Scanner) : Scanner := s.

Definition SetDataFilesystem (_ : FS) (s : Scanner) : Scanner := s.

(** Method dispatch through the [ConfigurableScanner] interface. *)
Definition callSetter (c : Setter) (s : Scanner) : Scanner :=
  match c with
  | CallSetSpec v => SetSpec v s
  | CallSetRegoOnly b => SetRegoOnly b s
  | CallSetFrameworks v => SetFrameworks v s
  | CallSetUseEmbeddedPolicies b => SetUseEmbeddedPolicies b s
  | CallSetPolicyReaders v => SetPolicyReaders v s
  | CallSetSkipRequiredCheck b => SetSkipRequiredCheck b s
  | CallSetDebugWriter w => SetDebugWriter w s
  | CallSetTraceWriter w => SetTraceWriter w s
  | CallSetPerResultTracingEnabled b => SetPerResultTracingEnabled b s
  | CallSetPolicyDirs v => SetPolicyDirs v s
  | CallSetDataDirs v => SetDataDirs v s
  | CallSetPolicyNamespaces v => SetPolicyNamespaces v s
  | CallSetPolicyFilesystem f => SetPolicyFilesystem f s
  | CallSetDataFilesystem f => SetDataFilesystem f s
  end.

(** [opt(s)]. *)
Definition applyOption (opt : ScannerOption) (s : Scanner) : Scanner :=
  foldl (fun acc c => callSetter c acc) s opt.

(** [&Scanner{options: opts}]: every other field has its zero value. *)
Definition zeroScanner (opts : list ScannerOption) : Scanner :=
  {| debug := LoggerZero; options := opts; policyDirs := [];
     policyReaders := []; regoScanner := None; parser := None;
     skipRequired := false; loadEmbedded := false; frameworks := [];
     spec := "" |}.

Definition set_parser (p : Parser) (s : Scanner) : Scanner :=
  {| debug := debug s; options := options s; policyDirs := policyDirs s;
     policyReaders := policyReaders s; regoScanner := regoScanner s;
     parser := Some p; skipRequired := skipRequired s;
     loadEmbedded := loadEmbedded s; frameworks := frameworks s;
     spec := spec s |}.

Definition set_regoScanner (e : EnginePtr) (s : Scanner) : Scanner :=
  {| debug := debug s; options := options s; policyDirs := policyDirs s;
     policyReaders := policyReaders s; regoScanner := Some e;
     parser := parser s; skipRequired := skipRequired s;
     loadEmbedded := loadEmbedded s; frameworks := frameworks s;
     spec := spec s |}.

Definition NewScanner (opts : list ScannerOption) : Scanner :=
  let s := foldl (fun acc opt => applyOption opt acc) (zeroScanner opts) opts in
  set_parser (ParserNew [ParserWithSkipRequiredCheck (skipRequired s)]) s.

Definition Name (_ : Scanner) : string := "Kubernetes".

(** ** The world *)

(** One entry per collaborator call, with the arguments of the call. *)
Inductive Event :=
| EvParseFS (p : option Parser) (ctx : Ctx) (target : FS) (dir : string)
| EvNewScanner (e : EnginePtr) (opts : list ScannerOption)
| EvSetParentDebugLogger (e : EnginePtr) (l : Logger)
| EvLoadPolicies (e : EnginePtr) (embedded : bool) (srcFS : FS)
    (dirs : list string) (readers : list Reader) (res : option Err)
| EvLog (l : Logger) (n : nat)
| EvScanInput (e : option EnginePtr) (ctx : Ctx) (inputs : list Input)
| EvSetSourceAndFilesystem (source : string) (f : FS) (mixed : bool)
| EvReadAll (r : Reader).

Record World := {
  ext : Ext;
  trace : list Event;
  allocated : nat;
}.

(** What is read off the log. *)
Definition isNewScanner (ev : Event) : bool :=
  match ev with EvNewScanner _ _ => true | _ => false end.

Definition isLoadFailed (ev : Event) : bool :=
  match ev with EvLoadPolicies _ _ _ _ _ (Some _) => true | _ => false end.

Definition isLoadOk (ev : Event) : bool :=
  match ev with EvLoadPolicies _ _ _ _ _ None => true | _ => false end.

Definition isLoadPolicies (ev : Event) : bool :=
  match ev with EvLoadPolicies _ _ _ _ _ _ => true | _ => false end.

Definition isScanInput (ev : Event) : bool :=
  match ev with EvScanInput _ _ _ => true | _ => false end.

Definition isSetSourceAndFilesystem (ev : Event) : bool :=
  match ev with EvSetSourceAndFilesystem _ _ _ => true | _ => false end.

Definition count (p : Event → bool) (tr : list Event) : nat :=
  length (List.filter p tr).

End Data.

(** ** The collaborators *)

(** [types.Source]: the one value the scanner uses. *)
Inductive Source := SourceKubernetes.

(** The functions the scanner calls and does not define.  Each one that can
    touch the outside takes and returns [Ext].  A method with a pointer
    receiver gets the pointer, nil or not, as Go passes it.  Every call is
    taken to return. *)
Class Collaborators `{T : Types} := {
  (* [ParseFS] of [parser.Parser] *)
  parser_ParseFS : option Parser → Ctx → FS → string → Ext →
                   gmap string (list Doc) * option Err * Ext;
  (* the order in which a [range] over the map visits its entries *)
  range_order : Ext → gmap string (list Doc) → list (string * list Doc);
  range_order_perm : ∀ x m, range_order x m ≡ₚ map_to_list m;
  (* [rego.NewScanner]: what building the engine at this address does *)
  rego_NewScanner : EnginePtr → Source → list ScannerOption → Ext → Ext;
  (* [SetParentDebugLogger] of [rego.Scanner] *)
  rego_SetParentDebugLogger : EnginePtr → Logger → Ext → Ext;
  (* [LoadPolicies] of [rego.Scanner] *)
  rego_LoadPolicies : EnginePtr → bool → FS → list string → list Reader →
                      Ext → option Err * Ext;
  (* [ScanInput] of [rego.Scanner] *)
  rego_ScanInput : option EnginePtr → Ctx → list Input → Ext →
                   Results * option Err * Ext;
  (* [debug.Logger.Log] with the format of [ScanFS] and its one argument *)
  debug_Log : Logger → nat → Ext → Ext;
  (* [memoryfs.New], [MkdirAll] and [WriteFile] of [memoryfs.FS];
     a memory filesystem used as an [fs.FS] *)
  memoryfs_New : MemFS;
  memfs_MkdirAll : MemFS → string → Z → MemFS * option Err;
  memfs_WriteFile : MemFS → string → list Byte.byte → Z → MemFS * option Err;
  memfs_FS : MemFS → FS;
  (* [io.ReadAll], [filepath.Base] *)
  io_ReadAll : Reader → Ext → list Byte.byte * option Err * Ext;
  filepath_Base : string → string;
}.

Section Sequential.
Context `{C : Collaborators}.

(** Collaborator calls on the world: the call is logged, then made. *)
Definition log (ev : Event) (x : Ext) (w : World) : World :=
  {| ext := x; trace := trace w ++ [ev]; allocated := allocated w |}.

Definition callParseFS (p : option Parser) (ctx : Ctx) (target : FS)
    (dir : string) (w : World)
    : gmap string (list Doc) * option Err * World :=
  let '(m, err, x) := parser_ParseFS p ctx target dir (ext w) in
  (m, err, log (EvParseFS p ctx target dir) x w).

Definition callNewScanner (opts : list ScannerOption) (w : World)
    : EnginePtr * World :=
  let e := allocated w in
  (e, {| ext := rego_NewScanner e SourceKubernetes opts (ext w);
         trace := trace w ++ [EvNewScanner e opts];
         allocated := S (allocated w) |}).

Definition callSetParentDebugLogger (e : EnginePtr) (l : Logger) (w : World)
    : World :=
  log (EvSetParentDebugLogger e l) (rego_SetParentDebugLogger e l (ext w)) w.

Definition callLoadPolicies (e : EnginePtr) (embedded : bool) (srcFS : FS)
    (dirs : list string) (readers : list Reader) (w : World)
    : option Err * World :=
  let '(err, x) := rego_LoadPolicies e embedded srcFS dirs readers (ext w) in
  (err, log (EvLoadPolicies e embedded srcFS dirs readers err) x w).

Definition callLog (l : Logger) (n : nat) (w : World) : World :=
  log (EvLog l n) (debug_Log l n (ext w)) w.

Definition callScanInput (e : option EnginePtr) (ctx : Ctx)
    (inputs : list Input) (w : World) : Results * option Err * World :=
  let '(r, err, x) := rego_ScanInput e ctx inputs (ext w) in
  (r, err, log (EvScanInput e ctx inputs) x w).

Definition callSetSourceAndFilesystem (source : string) (f : FS)
    (mixed : bool) (r : Results) (w : World) : Results * World :=
  (SetSourceAndFilesystem source f mixed r,
   log (EvSetSourceAndFilesystem source f mixed) (ext w) w).

Definition callReadAll (r : Reader) (w : World)
    : list Byte.byte * option Err * World :=
  let '(data, err, x) := io_ReadAll r (ext w) in
  (data, err, log (EvReadAll r) x w).

(** [func (s *Scanner) initRegoScanner(srcFS fs.FS)], returning the engine
    pointer and the error. *)
Definition initRegoScanner (srcFS : FS) (s : Scanner) (w : World)
    : option EnginePtr * option Err * Scanner * World :=
  match regoScanner s with
  | Some e => (Some e, None, s, w)
  | None =>
      let '(e, w1) := callNewScanner (options s) w in
      let w2 := callSetParentDebugLogger e (debug s) w1 in
      let '(err, w3) :=
        callLoadPolicies e (loadEmbedded s) srcFS (policyDirs s)
          (policyReaders s) w2 in
      match err with
      | Some err => (None, Some err, s, w3)
      | None => (Some e, None, set_regoScanner e s, w3)
      end
  end.

(** The two loops of [ScanFS]: [inputs = append(inputs, rego.Input{...})]
    for each document of each entry, in the order of the [range]. *)
Definition appendInputs (target : FS) (inputs : list Input)
    (entry : string * list Doc) : list Input :=
  foldl (fun acc content =>
           acc ++ [{| Path := entry.1; InputFS := target;
                      Contents := content |}])
        inputs entry.2.

Definition buildInputs (target : FS) (entries : list (string * list Doc))
    : list Input :=
  foldl (appendInputs target) [] entries.

(** [func (s *Scanner) ScanFS(ctx, target fs.FS, dir string)
      (scan.Results, error)] *)
Definition ScanFS (ctx : Ctx) (target : FS) (dir : string) (s : Scanner)
    (w : World) : Results * option Err * Scanner * World :=
  let '(k8sFilesets, err, w1) := callParseFS (parser s) ctx target dir w in
  match err with
  | Some err => ([], Some err, s, w1)
  | None =>
      if size k8sFilesets =? 0 then ([], None, s, w1)
      else
        let inputs := buildInputs target (range_order (ext w1) k8sFilesets) in
        let '(regoScanner, err, s1, w2) := initRegoScanner target s w1 in
        match err with
        | Some err => ([], Some err, s1, w2)
        | None =>
            let w3 := callLog (debug s1) (length inputs) w2 in
            let '(results, err, w4) := callScanInput regoScanner ctx inputs w3 in
            match err with
            | Some err => ([], Some err, s1, w4)
            | None =>
                let '(results, w5) :=
                  callSetSourceAndFilesystem "" target false results w4 in
                (results, None, s1, w5)
            end
        end
  end.

(** [func (s *Scanner) ScanReader(ctx, filename string, reader io.Reader)
      (scan.Results, error)] *)
Definition ScanReader (ctx : Ctx) (filename : string) (reader : Reader)
    (s : Scanner) (w : World) : Results * option Err * Scanner * World :=
  let memfs := memoryfs_New in
  let '(memfs, err) := memfs_MkdirAll memfs (filepath_Base filename) 448 in
  match err with
  | Some err => ([], Some err, s, w)
  | None =>
      let '(data, err, w1) := callReadAll reader w in
      match err with
      | Some err => ([], Some err, s, w1)
      | None =>
          let '(memfs, err) := memfs_WriteFile memfs filename data 420 in
          match err with
          | Some err => ([], Some err, s, w1)
          | None => ScanFS ctx (memfs_FS memfs) "." s w1
          end
      end
  end.

(** The world in which [initRegoScanner] calls [LoadPolicies] when the cache
    is empty: the engine has been allocated and given the debug logger. *)
Definition constructed (s : Scanner) (w : World) : World :=
  callSetParentDebugLogger (allocated w) (debug s)
    (callNewScanner (options s) w).2.

(** The first three statements of [ScanReader] build the filesystem that is
    handed to [ScanFS]:
    [memfs.MkdirAll(filepath.Base(filename), 0o700)] on a new [memoryfs.FS],
    then [memfs.WriteFile(filename, data, 0o644)]. *)
Definition streamDir (filename : string) : MemFS * option Err :=
  memfs_MkdirAll memoryfs_New (filepath_Base filename) 448.

Definition streamFile (filename : string) (data : list Byte.byte)
    : MemFS * option Err :=
  memfs_WriteFile (streamDir filename).1 filename data 420.

(** What a client can do with a scanner, one call after the other. *)
Inductive Call :=
| DoSetter (c : Setter)
| DoInitRegoScanner (srcFS : FS)
| DoScanFS (ctx : Ctx) (target : FS) (dir : string)
| DoScanReader (ctx : Ctx) (filename : string) (reader : Reader)
| Outside (f : Ext → Ext).   (* anything else in the process runs *)

Definition doCall (sw : Scanner * World) (c : Call) : Scanner * World :=
  match c with
  | DoSetter c => (callSetter c sw.1, sw.2)
  | DoInitRegoScanner srcFS =>
      let '(_, _, s, w) := initRegoScanner srcFS sw.1 sw.2 in (s, w)
  | DoScanFS ctx target dir =>
      let '(_, _, s, w) := ScanFS ctx target dir sw.1 sw.2 in (s, w)
  | DoScanReader ctx filename reader =>
      let '(_, _, s, w) := ScanReader ctx filename reader sw.1 sw.2 in (s, w)
  | Outside f =>
      (sw.1, {| ext := f (ext sw.2); trace := trace sw.2;
                allocated := allocated sw.2 |})
  end.

Definition doCalls (cs : list Call) (sw : Scanner * World) : Scanner * World :=
  foldl doCall sw cs.

(** The findings as a report shows them: rule identifier and status. *)
Definition verdicts (r : Results) : list (string * Status) :=
  (fun x => (ruleID x, status x)) <$> r.

End Sequential.

(** ** Concurrent calls of [ScanFS] on one scanner

    Several goroutines call [ScanFS] on the same [*Scanner].  Each goroutine
    advances one statement at a time; [initRegoScanner] is inlined at its call
    site, with [s.Lock()] and the deferred [s.Unlock()] as statements of their
    own.  The scanner, its mutex and the world are shared.  A schedule is the
    sequence of goroutine numbers the runtime picks; picking a goroutine that
    waits for the mutex, or one that has returned, changes nothing.  The field
    [s.regoScanner] is only accessed with the mutex held, so the interleaving
    of whole statements loses no behaviour of the Go memory model. *)
Section Concurrent.
Context `{C : Collaborators}.

(** Where a goroutine stands in [ScanFS], with the locals that are live. *)
Inductive Pc :=
| AtParse                                       (* scanner.go:140 *)
| AtBuild (k8sFilesets : gmap string (list Doc)) (* 145-158 *)
| AtLock (inputs : list Input)                  (* 160, 109 *)
| AtCheck (inputs : list Input)                 (* 111 *)
| AtNew (inputs : list Input)                   (* 114 *)
| AtSetLogger (inputs : list Input) (e : EnginePtr)  (* 115 *)
| AtLoad (inputs : list Input) (e : EnginePtr)  (* 116 *)
| AtStore (inputs : list Input) (e : EnginePtr) (* 119 *)
| AtUnlock (inputs : list Input) (ret : option EnginePtr * option Err)
                                                (* 110, on return *)
| AtLog (inputs : list Input) (regoScanner : option EnginePtr)   (* 165 *)
| AtScanInput (inputs : list Input) (regoScanner : option EnginePtr) (* 166 *)
| AtSetSource (results : Results)               (* 170 *)
| Returned (ret : Results * option Err).

Record Thread := {
  t_ctx : Ctx;
  t_target : FS;
  t_dir : string;
  t_pc : Pc;
}.

Record Shared := {
  sh_scanner : Scanner;
  sh_locked : bool;       (* the embedded sync.Mutex *)
  sh_world : World;
}.

Definition at_pc (t : Thread) (pc : Pc) : Thread :=
  {| t_ctx := t_ctx t; t_target := t_target t; t_dir := t_dir t; t_pc := pc |}.

(** One statement of goroutine [t]; [None] when it cannot move. *)
Definition stepThread (t : Thread) (sh : Shared) : option (Thread * Shared) :=
  let s := sh_scanner sh in
  let w := sh_world sh in
  let moved pc s' b' w' :=
    Some (at_pc t pc,
          {| sh_scanner := s'; sh_locked := b'; sh_world := w' |}) in
  match t_pc t with
  | AtParse =>
      let '(m, err, w1) :=
        callParseFS (parser s) (t_ctx t) (t_target t) (t_dir t) w in
      match err with
      | Some err => moved (Returned ([], Some err)) s (sh_locked sh) w1
      | None => moved (AtBuild m) s (sh_locked sh) w1
      end
  | AtBuild m =>
      if size m =? 0 then moved (Returned ([], None)) s (sh_locked sh) w
      else moved (AtLock (buildInputs (t_target t) (range_order (ext w) m)))
                 s (sh_locked sh) w
  | AtLock inputs =>
      if sh_locked sh then None else moved (AtCheck inputs) s true w
  | AtCheck inputs =>
      match regoScanner s with
      | Some e => moved (AtUnlock inputs (Some e, None)) s (sh_locked sh) w
      | None => moved (AtNew inputs) s (sh_locked sh) w
      end
  | AtNew inputs =>
      let '(e, w1) := callNewScanner (options s) w in
      moved (AtSetLogger inputs e) s (sh_locked sh) w1
  | AtSetLogger inputs e =>
      moved (AtLoad inputs e) s (sh_locked sh)
            (callSetParentDebugLogger e (debug s) w)
  | AtLoad inputs e =>
      let '(err, w1) :=
        callLoadPolicies e (loadEmbedded s) (t_target t) (policyDirs s)
          (policyReaders s) w in
      match err with
      | Some err => moved (AtUnlock inputs (None, Some err)) s (sh_locked sh) w1
      | None => moved (AtStore inputs e) s (sh_locked sh) w1
      end
  | AtStore inputs e =>
      moved (AtUnlock inputs (Some e, None)) (set_regoScanner e s)
            (sh_locked sh) w
  | AtUnlock inputs (r, err) =>
      match err with
      | Some err => moved (Returned ([], Some err)) s false w
      | None => moved (AtLog inputs r) s false w
      end
  | AtLog inputs r =>
      moved (AtScanInput inputs r) s (sh_locked sh)
            (callLog (debug s) (length inputs) w)
  | AtScanInput inputs r =>
      let '(results, err, w1) := callScanInput r (t_ctx t) inputs w in
      match err with
      | Some err => moved (Returned ([], Some err)) s (sh_locked sh) w1
      | None => moved (AtSetSource results) s (sh_locked sh) w1
      end
  | AtSetSource results =>
      let '(results, w1) :=
        callSetSourceAndFilesystem "" (t_target t) false results w in
      moved (Returned (results, None)) s (sh_locked sh) w1
  | Returned _ => None
  end.

Record Config := {
  shared : Shared;
  threads : list Thread;
}.

(** The runtime lets goroutine [i] make its next move. *)
Definition runStep (cfg : Config) (i : nat) : Config :=
  match threads cfg !! i with
  | Some t =>
      match stepThread t (shared cfg) with
      | Some (t', sh') => {| shared := sh'; threads := <[i := t']> (threads cfg) |}
      | None => cfg
      end
  | None => cfg
  end.

Definition run (schedule : list nat) (cfg : Config) : Config :=
  foldl runStep cfg schedule.

(** [go s.ScanFS(ctx, target, dir)] for each listed call, none of which has
    made a move yet; the mutex is free. *)
Definition spawn (call : Ctx * FS * string) : Thread :=
  {| t_ctx := call.1.1; t_target := call.1.2; t_dir := call.2;
     t_pc := AtParse |}.

Definition start (s : Scanner) (w : World) (calls : list (Ctx * FS * string))
    : Config :=
  {| shared := {| sh_scanner := s; sh_locked := false; sh_world := w |};
     threads := spawn <$> calls |}.

(** The engine a goroutine holds once [initRegoScanner] has handed it one. *)
Definition heldEngine (t : Thread) : option EnginePtr :=
  match t_pc t with
  | AtUnlock _ (Some e, None) => Some e
  | AtLog _ (Some e) => Some e
  | AtScanInput _ (Some e) => Some e
  | _ => None
  end.

Definition hasReturned (t : Thread) : bool :=
  match t_pc t with Returned _ => true | _ => false end.

(** The events logged since the world [w]. *)
Definition since (w : World) (cfg : Config) : list Event :=
  drop (length (trace w)) (trace (sh_world (shared cfg))).

(** *** The invariant of a run

    A goroutine is in the critical section from the statement after
    [s.Lock()] up to and including the deferred [s.Unlock()]. *)
Definition critical (pc : Pc) : bool :=
  match pc with
  | AtCheck _ | AtNew _ | AtSetLogger _ _ | AtLoad _ _ | AtStore _ _
  | AtUnlock _ _ => true
  | _ => false
  end.

(** It has built an engine whose policy load has not been logged yet. *)
Definition pendingNew (pc : Pc) : nat :=
  match pc with AtSetLogger _ _ | AtLoad _ _ => 1 | _ => 0 end.

(** It has loaded the policies and not yet stored the engine. *)
Definition pendingStore (pc : Pc) : nat :=
  match pc with AtStore _ _ => 1 | _ => 0 end.

(** It has read [s.regoScanner] as nil under the mutex it still holds. *)
Definition sawEmpty (pc : Pc) : bool :=
  match pc with
  | AtNew _ | AtSetLogger _ _ | AtLoad _ _ | AtStore _ _ => true
  | _ => false
  end.

(** The engine pointer it got from [initRegoScanner] with the nil error. *)
Definition engineArg (pc : Pc) : option (option EnginePtr) :=
  match pc with
  | AtUnlock _ (r, None) => Some r
  | AtLog _ r => Some r
  | AtScanInput _ r => Some r
  | _ => None
  end.

Definition cached (s : Scanner) : nat :=
  match regoScanner s with Some _ => 1 | None => 0 end.

(** The books of the engines built: [a] built and not yet loaded, [b] loaded
    and not yet stored. *)
Definition balanced (tr : list Event) (s : Scanner) (a b : nat) : Prop :=
  count isNewScanner tr = count isLoadFailed tr + count isLoadOk tr + a ∧
  count isLoadOk tr = b + cached s.

(** An evaluation in the log ran on the engine [c]. *)
Definition scansOn (c : option EnginePtr) (ev : Event) : Prop :=
  match ev with
  | EvScanInput r _ _ => r = c ∧ is_Some c
  | _ => True
  end.

(** What holds of the log [tr] of a run, the scanner [s], the mutex [b] and
    the goroutines [ts] at every point of the run. *)
Record Good (tr : list Event) (s : Scanner) (b : bool) (ts : list Thread)
    : Prop := {
  good_mutex : ∀ i j ti tj,
    ts !! i = Some ti → ts !! j = Some tj →
    critical (t_pc ti) = true → critical (t_pc tj) = true → i = j;
  good_free : b = false → balanced tr s 0 0;
  good_held : b = true → ∃ i t, ts !! i = Some t ∧ critical (t_pc t) = true;
  good_critical : ∀ i t,
    ts !! i = Some t → critical (t_pc t) = true →
    b = true ∧
    balanced tr s (pendingNew (t_pc t)) (pendingStore (t_pc t)) ∧
    (sawEmpty (t_pc t) = true → regoScanner s = None);
  good_engine : ∀ i t r,
    ts !! i = Some t → engineArg (t_pc t) = Some r →
    r = regoScanner s ∧ is_Some (regoScanner s);
  good_scans : Forall (scansOn (regoScanner s)) tr;
}.

(** The invariant of the runs that start in a world whose log is [tr0]. *)
Definition Inv (tr0 : list Event) (cfg : Config) : Prop :=
  ∃ tr,
    trace (sh_world (shared cfg)) = tr0 ++ tr ∧
    Good tr (sh_scanner (shared cfg)) (sh_locked (shared cfg)) (threads cfg).

End Concurrent.

(** ** A small world to run the scanner in

    Files hold bytes; the parser reports one document per byte of every file,
    and fails on the directory ["unreadable"]; a policy load fails when one
    of the policy directories is ["missing"]; the one rule of the engine
    fails on the zero byte.  [Ext] counts the policy loads attempted. *)
Module Demo.

#[export] Instance types : Types := {|
  FS := list (string * list Byte.byte);
  Doc := Byte.byte;
  Err := string;
  Ctx := unit;
  Reader := option (list Byte.byte);
  Writer := unit;
  Framework := unit;
  MemFS := list (string * list Byte.byte);
  Ext := nat;
|}.

Definition verdict (i : Input) : Finding :=
  {| status := if Byte.eqb (Contents i) Byte.x00 then StatusFailed
               else StatusPassed;
     ruleID := "field-x-must-be-set";
     provenance := None |}.

#[export] Instance collaborators : Collaborators := {|
  parser_ParseFS := fun _ _ (target : FS) dir x =>
    if decide (dir = "unreadable") then (∅, Some "cannot read directory", x)
    else (list_to_map target, None, x);
  range_order := fun _ m => map_to_list m;
  range_order_perm := fun _ m => reflexivity (map_to_list m);
  rego_NewScanner := fun _ _ _ x => x;
  rego_SetParentDebugLogger := fun _ _ x => x;
  rego_LoadPolicies := fun _ _ _ dirs _ x =>
    if decide ("missing" ∈ dirs) then (Some "policy directory not found", S x)
    else (None, S x);
  rego_ScanInput := fun _ _ inputs x => (verdict <$> inputs, None, x);
  debug_Log := fun _ _ x => x;
  memoryfs_New := [];
  memfs_MkdirAll := fun m _ _ => (m, None);
  memfs_WriteFile := fun m name data _ =>
    if decide (name = "") then (m, Some "invalid path")
    else ((name, data) :: m, None);
  memfs_FS := fun m => m;
  io_ReadAll := fun r x =>
    match r with
    | Some data => (data, None, x)
    | None => ([], Some "read error", x)
    end;
  filepath_Base := fun name => name;
|}.

(** A world with [x] policy loads attempted, the log [tr] and [n] engines
    allocated; the world before anything has run. *)
Definition world (x : nat) (tr : list Event) (n : nat) : World :=
  {| ext := x; trace := tr; allocated := n |}.
Definition world0 : World := world 0 [] 0.

(** Scanners built by [NewScanner]. *)
Definition plain : Scanner := NewScanner [].
Definition withPolicies : Scanner :=
  NewScanner [[CallSetPolicyDirs ["policies"]]].
Definition withMissingPolicies : Scanner :=
  NewScanner [[CallSetPolicyDirs ["missing"]]].

(** File trees. *)
Definition emptyTree : FS := [].
Definition oneManifest : FS := [("pod.yaml", [Byte.x00])].
Definition twoManifests : FS :=
  [("a.yaml", [Byte.x01; Byte.x00]); ("b.yaml", [Byte.x02])].
(** A file that holds no document at all. *)
Definition blankFile : FS := [("blank.yaml", [])].

End Demo.

(** ** The small world with an engine that can fail

    The collaborators of [Demo], except that the engine refuses to evaluate a
    batch that holds the byte [xff]. *)
Module DemoStrict.

Definition refused (i : Input (T:=Demo.types)) : bool :=
  Byte.eqb (Contents i) Byte.xff.

Definition collaborators : Collaborators (T:=Demo.types) := {|
  parser_ParseFS := parser_ParseFS (Collaborators:=Demo.collaborators);
  range_order := range_order (Collaborators:=Demo.collaborators);
  range_order_perm := range_order_perm (Collaborators:=Demo.collaborators);
  rego_NewScanner := rego_NewScanner (Collaborators:=Demo.collaborators);
  rego_SetParentDebugLogger :=
    rego_SetParentDebugLogger (Collaborators:=Demo.collaborators);
  rego_LoadPolicies := rego_LoadPolicies (Collaborators:=Demo.collaborators);
  rego_ScanInput := fun _ _ inputs x =>
    if existsb refused inputs
    then ([], Some "cannot evaluate", x)
    else (Demo.verdict <$> inputs, None, x);
  debug_Log := debug_Log (Collaborators:=Demo.collaborators);
  memoryfs_New := memoryfs_New (Collaborators:=Demo.collaborators);
  memfs_MkdirAll := memfs_MkdirAll (Collaborators:=Demo.collaborators);
  memfs_WriteFile := memfs_WriteFile (Collaborators:=Demo.collaborators);
  memfs_FS := memfs_FS (Collaborators:=Demo.collaborators);
  io_ReadAll := io_ReadAll (Collaborators:=Demo.collaborators);
  filepath_Base := filepath_Base (Collaborators:=Demo.collaborators);
|}.

Definition poisoned : FS (Types:=Demo.types) := [("bad.yaml", [Byte.xff])].

End DemoStrict.

(** ** Further observations on scanners, logs and runs *)
Section Observations.
Context `{C : Collaborators}.

(** The field of [Scanner] a setter assigns, if it assigns one. *)
Inductive Field :=
| FieldSpec | FieldFrameworks | FieldLoadEmbedded | FieldPolicyReaders
| FieldSkipRequired | FieldDebug | FieldPolicyDirs.

Definition written (c : Setter) : option Field :=
  match c with
  | CallSetSpec _ => Some FieldSpec
  | CallSetFrameworks _ => Some FieldFrameworks
  | CallSetUseEmbeddedPolicies _ => Some FieldLoadEmbedded
  | CallSetPolicyReaders _ => Some FieldPolicyReaders
  | CallSetSkipRequiredCheck _ => Some FieldSkipRequired
  | CallSetDebugWriter _ => Some FieldDebug
  | CallSetPolicyDirs _ => Some FieldPolicyDirs
  | CallSetRegoOnly _ | CallSetTraceWriter _
  | CallSetPerResultTracingEnabled _ | CallSetDataDirs _
  | CallSetPolicyNamespaces _ | CallSetPolicyFilesystem _
  | CallSetDataFilesystem _ => None
  end.

(** The value a setter call gives to the policy directories, the policy
    readers, the embedded-policy flag and the skip flag. *)
Definition pickPolicyDirs (c : Setter) : option (list string) :=
  match c with CallSetPolicyDirs dirs => Some dirs | _ => None end.

Definition pickPolicyReaders (c : Setter) : option (list Reader) :=
  match c with CallSetPolicyReaders readers => Some readers | _ => None end.

Definition pickLoadEmbedded (c : Setter) : option bool :=
  match c with CallSetUseEmbeddedPolicies b => Some b | _ => None end.

Definition pickSkipRequired (c : Setter) : option bool :=
  match c with CallSetSkipRequiredCheck b => Some b | _ => None end.

(** The last value the calls [cs] give, or [zero] when they give none. *)
Definition lastSetting {A} (pick : Setter → option A) (zero : A)
    (cs : list Setter) : A :=
  default zero (last (omap pick cs)).

(** More to read off the log. *)
Definition isParseFS (ev : Event) : bool :=
  match ev with EvParseFS _ _ _ _ => true | _ => false end.

Definition isSetParentDebugLogger (ev : Event) : bool :=
  match ev with EvSetParentDebugLogger _ _ => true | _ => false end.

(** An engine in the log was built with the options [opts]. *)
Definition builtWith (opts : list ScannerOption) (ev : Event) : Prop :=
  match ev with EvNewScanner _ o => o = opts | _ => True end.

(** The collaborator call [ev] is one a scan of [target] from [dir] under
    [ctx] makes with the scanner [s]: it passes on the context, the target
    and the settings of the scanner. *)
Definition madeBy (s : Scanner) (ctx : Ctx) (target : FS) (dir : string)
    (ev : Event) : Prop :=
  match ev with
  | EvParseFS p c f d => p = parser s ∧ c = ctx ∧ f = target ∧ d = dir
  | EvNewScanner _ o => o = options s
  | EvSetParentDebugLogger _ l => l = debug s
  | EvLoadPolicies _ b f dirs readers _ =>
      b = loadEmbedded s ∧ f = target ∧ dirs = policyDirs s ∧
      readers = policyReaders s
  | EvLog l _ => l = debug s
  | EvScanInput _ c _ => c = ctx
  | EvSetSourceAndFilesystem source f mixed =>
      source = "" ∧ f = target ∧ mixed = false
  | EvReadAll _ => False
  end.

(** What a goroutine that has returned has returned: no results with an
    error, and results that carry the provenance of its own target. *)
Definition returnedWell (t : Thread) : Prop :=
  match t_pc t with
  | Returned (results, err) =>
      (is_Some err → results = []) ∧
      Forall (fun f => provenance f =
                Some {| sourceLabel := ""; fsRef := t_target t;
                        mixedFS := false |}) results
  | _ => True
  end.

(** The statements a goroutine has left on the longest path to its return. *)
Definition remaining (pc : Pc) : nat :=
  match pc with
  | AtParse => 12
  | AtBuild _ => 11
  | AtLock _ => 10
  | AtCheck _ => 9
  | AtNew _ => 8
  | AtSetLogger _ _ => 7
  | AtLoad _ _ => 6
  | AtStore _ _ => 5
  | AtUnlock _ _ => 4
  | AtLog _ _ => 3
  | AtScanInput _ _ => 2
  | AtSetSource _ => 1
  | Returned _ => 0
  end.

Definition totalRemaining (ts : list Thread) : nat :=
  sum_list_with (fun t => remaining (t_pc t)) ts.

(** Goroutine [i] can move. *)
Definition enabled (cfg : Config) (i : nat) : Prop :=
  ∃ t, threads cfg !! i = Some t ∧ is_Some (stepThread t (shared cfg)).

(** The schedule that lets goroutines [0 .. n-1] move in turn, [rounds]
    times over. *)
Definition roundRobin (n rounds : nat) : list nat :=
  concat (replicate rounds (seq 0 n)).

(** The mutex and the critical section: the mutex is held exactly when a
    goroutine is in the critical section, and at most one is. *)
Record Excl (b : bool) (ts : list Thread) : Prop := {
  excl_one : ∀ i j ti tj,
    ts !! i = Some ti → ts !! j = Some tj →
    critical (t_pc ti) = true → critical (t_pc tj) = true → i = j;
  excl_held : b = true → ∃ i t, ts !! i = Some t ∧ critical (t_pc t) = true;
  excl_locked : ∀ i t,
    ts !! i = Some t → critical (t_pc t) = true → b = true;
}.

End Observations.

(** * Properties of the sequential methods *)
Section SequentialProperties.
Context `{C : Collaborators}.

(** ** The setters and the cache *)

Lemma callSetter_regoScanner c s : regoScanner (callSetter c s) = regoScanner s.
Proof. by destruct c. Qed.

Lemma callSetter_parser c s : parser (callSetter c s) = parser s.
Proof. by destruct c. Qed.

Lemma callSetter_options c s : options (callSetter c s) = options s.
Proof. by destruct c. Qed.

Lemma applyOption_regoScanner opt s :
  regoScanner (applyOption opt s) = regoScanner s.
Proof.
  unfold applyOption. revert s.
  induction opt as [|c opt IH]; intros s; simpl; [done|].
  by rewrite IH, callSetter_regoScanner.
Qed.

Lemma applyOption_parser opt s : parser (applyOption opt s) = parser s.
Proof.
  unfold applyOption. revert s.
  induction opt as [|c opt IH]; intros s; simpl; [done|].
  by rewrite IH, callSetter_parser.
Qed.

Lemma applyOption_options opt s : options (applyOption opt s) = options s.
Proof.
  unfold applyOption. revert s.
  induction opt as [|c opt IH]; intros s; simpl; [done|].
  by rewrite IH, callSetter_options.
Qed.

(** ** Counting in the log *)

Lemma count_app p tr1 tr2 : count p (tr1 ++ tr2) = count p tr1 + count p tr2.
Proof. unfold count. by rewrite List.filter_app, length_app. Qed.

Lemma count_snoc p tr ev :
  count p (tr ++ [ev]) = count p tr + (if p ev then 1 else 0).
Proof. rewrite count_app. unfold count. simpl. by destruct (p ev). Qed.

Lemma count_log p ev x w :
  count p (trace (log ev x w)) = count p (trace w) + (if p ev then 1 else 0).
Proof. apply count_snoc. Qed.

(** The calls of [initRegoScanner] that the log does not single out with
    [p] do not change the count of [p]. *)
Lemma initRegoScanner_count p srcFS s w :
  (∀ e opts, p (EvNewScanner e opts) = false) →
  (∀ e l, p (EvSetParentDebugLogger e l) = false) →
  (∀ e b f dirs readers res,
      p (EvLoadPolicies e b f dirs readers res) = false) →
  count p (trace (initRegoScanner srcFS s w).2) = count p (trace w).
Proof.
  intros Hnew Hlog Hload. unfold initRegoScanner.
  destruct (regoScanner s); [done|].
  unfold callLoadPolicies, callSetParentDebugLogger, callNewScanner.
  cbn [fst snd].
  destruct (rego_LoadPolicies _ _ _ _ _ _) as [[err|] x]; cbn [snd];
    rewrite !count_log; cbn [trace]; rewrite count_snoc;
    rewrite Hnew, Hlog, Hload; lia.
Qed.

(** ** [initRegoScanner] *)

(** A call on a filled cache is the fast path: it changes nothing. *)
Lemma initRegoScanner_cached srcFS s w e :
  regoScanner s = Some e →
  initRegoScanner srcFS s w = (Some e, None, s, w).
Proof. intros H. unfold initRegoScanner. by rewrite H. Qed.

(** A call on an empty cache builds an engine and loads the policies. *)
Lemma initRegoScanner_empty srcFS s w :
  regoScanner s = None →
  initRegoScanner srcFS s w =
    let e := allocated w in
    let '(err, x) :=
      rego_LoadPolicies e (loadEmbedded s) srcFS (policyDirs s)
        (policyReaders s) (ext (constructed s w)) in
    let w3 :=
      log (EvLoadPolicies e (loadEmbedded s) srcFS (policyDirs s)
             (policyReaders s) err) x (constructed s w) in
    match err with
    | Some err => (None, Some err, s, w3)
    | None => (Some e, None, set_regoScanner e s, w3)
    end.
Proof.
  intros H. unfold initRegoScanner, callLoadPolicies, constructed. rewrite H.
  simpl. by destruct (rego_LoadPolicies _ _ _ _ _ _) as [[err|] x].
Qed.

(** Whatever the call does, an error comes with a nil engine and no error
    comes with the engine that is cached on return. *)
Lemma initRegoScanner_result srcFS s w r err s1 w1 :
  initRegoScanner srcFS s w = (r, err, s1, w1) →
  match err with
  | Some _ => r = None ∧ s1 = s ∧ regoScanner s = None
  | None => ∃ e, r = Some e ∧ regoScanner s1 = Some e
  end.
Proof.
  unfold initRegoScanner. destruct (regoScanner s) as [e|] eqn:He.
  - intros [= <- <- <- <-]. eauto.
  - simpl. destruct (callLoadPolicies _ _ _ _ _ _) as [[e'|] w3].
    + intros [= <- <- <- <-]. done.
    + intros [= <- <- <- <-]. eauto.
Qed.

Lemma initRegoScanner_keeps_cache srcFS s w e :
  regoScanner s = Some e →
  regoScanner (initRegoScanner srcFS s w).1.2 = Some e.
Proof. intros H. by rewrite (initRegoScanner_cached _ _ _ e). Qed.

Lemma initRegoScanner_parser srcFS s w :
  parser (initRegoScanner srcFS s w).1.2 = parser s.
Proof.
  unfold initRegoScanner. destruct (regoScanner s); [done|]. simpl.
  by destruct (callLoadPolicies _ _ _ _ _ _) as [[?|] ?].
Qed.

(** ** [ScanFS] *)

(** The scanner that [ScanFS] leaves is the one [initRegoScanner] leaves, or
    the one it was given. *)
Lemma ScanFS_scanner ctx target dir s w :
  (ScanFS ctx target dir s w).1.2 = s ∨
  ∃ w1, (ScanFS ctx target dir s w).1.2 = (initRegoScanner target s w1).1.2.
Proof.
  unfold ScanFS.
  destruct (callParseFS _ _ _ _ _) as [[m [e|]] w1]; [by left|].
  destruct (size m =? 0); [by left|]. right. exists w1.
  destruct (initRegoScanner target s w1) as [[[r [e|]] s1] w2]; [done|].
  destruct (callScanInput _ _ _ _) as [[res [e|]] w4]; [done|]. done.
Qed.

(** With a filled cache a scan leaves the scanner alone and neither builds
    an engine nor loads policies. *)
Lemma ScanFS_cached ctx target dir s w e :
  regoScanner s = Some e →
  (ScanFS ctx target dir s w).1.2 = s ∧
  count isNewScanner (trace (ScanFS ctx target dir s w).2) =
    count isNewScanner (trace w) ∧
  count isLoadPolicies (trace (ScanFS ctx target dir s w).2) =
    count isLoadPolicies (trace w).
Proof.
  intros He. unfold ScanFS, callParseFS.
  destruct (parser_ParseFS _ _ _ _ _) as [[m [err|]] x]; simpl.
  { rewrite !count_snoc. simpl. repeat split; lia. }
  destruct (size m =? 0); simpl.
  { rewrite !count_snoc. simpl. repeat split; lia. }
  rewrite (initRegoScanner_cached _ _ _ e He).
  unfold callScanInput.
  destruct (rego_ScanInput _ _ _ _) as [[res [err|]] x']; simpl;
    rewrite !count_snoc; simpl; repeat split; lia.
Qed.

Lemma ScanReader_cached ctx filename reader s w e :
  regoScanner s = Some e →
  (ScanReader ctx filename reader s w).1.2 = s ∧
  count isNewScanner (trace (ScanReader ctx filename reader s w).2) =
    count isNewScanner (trace w) ∧
  count isLoadPolicies (trace (ScanReader ctx filename reader s w).2) =
    count isLoadPolicies (trace w).
Proof.
  intros He. unfold ScanReader, callReadAll.
  destruct (memfs_MkdirAll _ _ _) as [m1 [err|]]; [done|].
  destruct (io_ReadAll _ _) as [[data [err|]] x]; simpl.
  { rewrite !count_snoc. simpl. repeat split; lia. }
  destruct (memfs_WriteFile _ _ _ _) as [m2 [err|]]; simpl.
  { rewrite !count_snoc. simpl. repeat split; lia. }
  destruct (ScanFS_cached ctx (memfs_FS m2) "." s
              (log (EvReadAll reader) x w) e He) as (-> & -> & ->).
  simpl. rewrite !count_snoc. simpl. repeat split; lia.
Qed.

(** Once the cache is filled no call empties or replaces it, and no call
    builds an engine or loads policies. *)
Lemma doCall_cached c s w e :
  regoScanner s = Some e →
  regoScanner (doCall (s, w) c).1 = Some e ∧
  count isNewScanner (trace (doCall (s, w) c).2) = count isNewScanner (trace w) ∧
  count isLoadPolicies (trace (doCall (s, w) c).2) =
    count isLoadPolicies (trace w).
Proof.
  intros He. destruct c as [c|srcFS|ctx target dir|ctx filename reader|f];
    simpl.
  - by rewrite callSetter_regoScanner.
  - by rewrite (initRegoScanner_cached _ _ _ e He).
  - destruct (ScanFS_cached ctx target dir s w e He) as (Hs & Hn & Hl).
    destruct (ScanFS ctx target dir s w) as [[[r err] s'] w']. simpl in *.
    by subst.
  - destruct (ScanReader_cached ctx filename reader s w e He) as (Hs & Hn & Hl).
    destruct (ScanReader ctx filename reader s w) as [[[r err] s'] w'].
    simpl in *. by subst.
  - done.
Qed.

Lemma doCalls_cached cs s w e :
  regoScanner s = Some e →
  regoScanner (doCalls cs (s, w)).1 = Some e ∧
  count isNewScanner (trace (doCalls cs (s, w)).2) =
    count isNewScanner (trace w) ∧
  count isLoadPolicies (trace (doCalls cs (s, w)).2) =
    count isLoadPolicies (trace w).
Proof.
  unfold doCalls. revert s w.
  induction cs as [|c cs IH]; intros s w He; simpl; [done|].
  destruct (doCall_cached c s w e He) as (He' & Hn & Hl).
  destruct (doCall (s, w) c) as [s' w']. simpl in *.
  destruct (IH s' w' He') as (? & ? & ?). repeat split; congruence.
Qed.

End SequentialProperties.

(** * The empty tree and the failing parser *)

(** C1.  When the parser returns the empty mapping and no error, [ScanFS]
    returns the nil results and the nil error.  The scanner is left as it
    was, so an unset engine cache stays unset; the only collaborator call of
    the scan is the parse: no engine is allocated or built and
    [LoadPolicies] is not called. *)
Theorem ScanFS_empty_mapping `{C : Collaborators}
    (ctx : Ctx) (target : FS) (dir : string) (s : Scanner) (w : World)
    (x : Ext) :
  parser_ParseFS (parser s) ctx target dir (ext w) = (∅, None, x) →
  let w' := log (EvParseFS (parser s) ctx target dir) x w in
  ScanFS ctx target dir s w = ([], None, s, w') ∧
  (regoScanner s = None →
   regoScanner (ScanFS ctx target dir s w).1.2 = None) ∧
  trace w' = trace w ++ [EvParseFS (parser s) ctx target dir] ∧
  allocated w' = allocated w ∧
  count isNewScanner (trace w') = count isNewScanner (trace w) ∧
  count isLoadPolicies (trace w') = count isLoadPolicies (trace w).
Proof.
  intros Hparse w'.
  assert (ScanFS ctx target dir s w = ([], None, s, w')) as Heq.
  { unfold ScanFS, callParseFS. rewrite Hparse. simpl. done. }
  split; [exact Heq|]. rewrite Heq. simpl.
  rewrite !count_snoc. simpl. repeat split; auto with lia.
Qed.

Lemma ScanFS_empty_mapping_witness :
  parser_ParseFS (Collaborators:=Demo.collaborators) (parser Demo.plain) tt
    Demo.emptyTree "." 0 = (∅, None, 0) ∧
  ScanFS (C:=Demo.collaborators) tt Demo.emptyTree "." Demo.plain Demo.world0 =
    ([], None, Demo.plain,
     Demo.world 0 [EvParseFS (T:=Demo.types) (parser Demo.plain) tt Demo.emptyTree "."] 0).
Proof.
  split; [reflexivity|].
  exact (proj1 (ScanFS_empty_mapping (C:=Demo.collaborators) tt Demo.emptyTree "." Demo.plain
                  Demo.world0 0 eq_refl)).
Defined.

(** C5.  When the parser returns an error, [ScanFS] returns the nil results
    and that very error.  The scanner is left as it was, engine cache
    included, and the parse is the only collaborator call of the scan. *)
Theorem ScanFS_parser_error `{C : Collaborators}
    (ctx : Ctx) (target : FS) (dir : string) (s : Scanner) (w : World)
    (m : gmap string (list Doc)) (err : Err) (x : Ext) :
  parser_ParseFS (parser s) ctx target dir (ext w) = (m, Some err, x) →
  let w' := log (EvParseFS (parser s) ctx target dir) x w in
  ScanFS ctx target dir s w = ([], Some err, s, w') ∧
  regoScanner (ScanFS ctx target dir s w).1.2 = regoScanner s ∧
  trace w' = trace w ++ [EvParseFS (parser s) ctx target dir] ∧
  allocated w' = allocated w.
Proof.
  intros Hparse w'.
  assert (ScanFS ctx target dir s w = ([], Some err, s, w')) as Heq.
  { unfold ScanFS, callParseFS. by rewrite Hparse. }
  rewrite Heq. done.
Qed.

Lemma ScanFS_parser_error_witness :
  parser_ParseFS (Collaborators:=Demo.collaborators) (parser Demo.plain) tt Demo.oneManifest "unreadable" 0 =
    (∅, Some "cannot read directory", 0) ∧
  ScanFS (C:=Demo.collaborators) tt Demo.oneManifest "unreadable" Demo.plain Demo.world0 =
    ([], Some "cannot read directory", Demo.plain,
     Demo.world 0
       [EvParseFS (T:=Demo.types) (parser Demo.plain) tt Demo.oneManifest "unreadable"] 0).
Proof.
  split; [reflexivity|].
  exact (proj1 (ScanFS_parser_error (C:=Demo.collaborators) tt Demo.oneManifest "unreadable"
                  Demo.plain Demo.world0 ∅ "cannot read directory" 0
                  eq_refl)).
Defined.

(** * The engine cache *)

(** C3.  After [initRegoScanner] has succeeded, the scanner holds an engine,
    and whatever is called next (setters, scans, further initialisations,
    with anything else running in between), a call of [initRegoScanner], on
    any filesystem, returns that same engine and the nil error and changes
    neither the scanner nor the world: up to that call and through it no
    engine is built and no policy is loaded again. *)
Theorem initRegoScanner_cached_forever `{C : Collaborators}
    (srcFS : FS) (s : Scanner) (w : World) (r : option EnginePtr)
    (s1 : Scanner) (w1 : World) :
  initRegoScanner srcFS s w = (r, None, s1, w1) →
  ∃ e, r = Some e ∧ regoScanner s1 = Some e ∧
    ∀ (later : list Call) (srcFS' : FS),
      let s2 := (doCalls later (s1, w1)).1 in
      let w2 := (doCalls later (s1, w1)).2 in
      initRegoScanner srcFS' s2 w2 = (Some e, None, s2, w2) ∧
      count isLoadPolicies (trace w2) = count isLoadPolicies (trace w1) ∧
      count isNewScanner (trace w2) = count isNewScanner (trace w1).
Proof.
  intros Hinit.
  destruct (initRegoScanner_result _ _ _ _ _ _ _ Hinit) as (e & -> & He).
  exists e. split; [done|]. split; [done|].
  intros later srcFS' s2 w2.
  destruct (doCalls_cached later s1 w1 e He) as (He2 & Hn & Hl).
  split; [|done]. by apply initRegoScanner_cached.
Qed.

Lemma initRegoScanner_cached_forever_witness :
  let first :=
    initRegoScanner (C:=Demo.collaborators) Demo.oneManifest
      Demo.withPolicies Demo.world0 in
  first = (Some 0, None, first.1.2, first.2) ∧
  initRegoScanner (C:=Demo.collaborators) Demo.twoManifests
    (SetPolicyDirs ["missing"] first.1.2) first.2 =
    (Some 0, None, SetPolicyDirs ["missing"] first.1.2, first.2).
Proof.
  split; [reflexivity|].
  destruct (initRegoScanner_cached_forever (C:=Demo.collaborators)
              Demo.oneManifest Demo.withPolicies Demo.world0 (Some 0) _ _
              eq_refl) as (e & He & _ & Hlater).
  injection He as <-.
  exact (proj1 (Hlater [DoSetter (CallSetPolicyDirs ["missing"])]
                  Demo.twoManifests)).
Defined.

(** C4.  On a scanner whose engine cache is empty, when the policy load of
    [initRegoScanner] fails, the call returns the nil engine and that error
    and leaves the scanner as it was, cache empty.  The cache stays empty
    under any setter calls, and the next call of [initRegoScanner] builds an
    engine and loads the policies again, with the sources the scanner then
    has; if that load succeeds the new engine is returned and cached. *)
Theorem initRegoScanner_load_failure `{C : Collaborators}
    (srcFS : FS) (s : Scanner) (w : World) (err : Err) (x : Ext) :
  regoScanner s = None →
  rego_LoadPolicies (allocated w) (loadEmbedded s) srcFS (policyDirs s)
    (policyReaders s) (ext (constructed s w)) = (Some err, x) →
  let w1 :=
    log (EvLoadPolicies (allocated w) (loadEmbedded s) srcFS (policyDirs s)
           (policyReaders s) (Some err)) x (constructed s w) in
  initRegoScanner srcFS s w = (None, Some err, s, w1) ∧
  ∀ (corrections : ScannerOption) (srcFS' : FS) (w' : World),
    let s' := applyOption corrections s in
    regoScanner s' = None ∧
    ∃ r2 err2 s2 w2,
      initRegoScanner srcFS' s' w' = (r2, err2, s2, w2) ∧
      trace w2 = trace w' ++
        [EvNewScanner (allocated w') (options s');
         EvSetParentDebugLogger (allocated w') (debug s');
         EvLoadPolicies (allocated w') (loadEmbedded s') srcFS'
           (policyDirs s') (policyReaders s') err2] ∧
      (err2 = None →
       r2 = Some (allocated w') ∧ regoScanner s2 = Some (allocated w')).
Proof.
  intros Hnil Hload w1. split.
  - rewrite (initRegoScanner_empty _ _ _ Hnil). cbv zeta. by rewrite Hload.
  - intros cs srcFS' w' s'.
    assert (regoScanner s' = None) as Hnil'
      by (unfold s'; by rewrite applyOption_regoScanner).
    split; [done|].
    rewrite (initRegoScanner_empty _ _ _ Hnil'). cbv zeta.
    destruct (rego_LoadPolicies _ _ srcFS' _ _ _) as [[err2|] x2].
    + eexists _, _, _, _. split; [reflexivity|]. simpl.
      rewrite <- !app_assoc. done.
    + eexists _, _, _, _. split; [reflexivity|]. simpl.
      rewrite <- !app_assoc. done.
Qed.

Lemma initRegoScanner_load_failure_witness :
  regoScanner Demo.withMissingPolicies = None ∧
  initRegoScanner (C:=Demo.collaborators) Demo.oneManifest Demo.withMissingPolicies Demo.world0 =
    (None, Some "policy directory not found", Demo.withMissingPolicies,
     Demo.world 1
       [EvNewScanner (T:=Demo.types) 0 (options Demo.withMissingPolicies);
        EvSetParentDebugLogger 0 LoggerZero;
        EvLoadPolicies 0 false Demo.oneManifest ["missing"] []
          (Some "policy directory not found")] 1).
Proof.
  split; [reflexivity|].
  exact (proj1 (initRegoScanner_load_failure (C:=Demo.collaborators) Demo.oneManifest
                  Demo.withMissingPolicies Demo.world0
                  "policy directory not found" 1 eq_refl eq_refl)).
Defined.

(** * The input adapter *)
Section InputAdapter.
Context `{C : Collaborators}.
Implicit Types (target : FS) (entry : string * list Doc)
  (entries : list (string * list Doc)) (m : gmap string (list Doc)).

(** The inputs one entry of the mapping contributes. *)
Local Abbreviation inputsOf target entry :=
  ((fun content => {| Path := entry.1; InputFS := target;
                      Contents := content |}) <$> entry.2).

Lemma appendInputs_app target inputs entry :
  appendInputs target inputs entry = inputs ++ inputsOf target entry.
Proof.
  unfold appendInputs. destruct entry as [path docs]. simpl. revert inputs.
  induction docs as [|d docs IH]; intros inputs; simpl.
  - by rewrite app_nil_r.
  - rewrite IH. by rewrite <- app_assoc.
Qed.

Lemma foldl_appendInputs target inputs entries :
  foldl (appendInputs target) inputs entries =
    inputs ++ buildInputs target entries.
Proof.
  unfold buildInputs. revert inputs.
  induction entries as [|entry entries IH]; intros inputs; simpl.
  - by rewrite app_nil_r.
  - rewrite IH, (IH (appendInputs target [] entry)), !appendInputs_app.
    by rewrite app_assoc.
Qed.

Lemma buildInputs_cons target entry entries :
  buildInputs target (entry :: entries) =
    inputsOf target entry ++ buildInputs target entries.
Proof.
  unfold buildInputs at 1. simpl.
  by rewrite foldl_appendInputs, appendInputs_app.
Qed.

Lemma buildInputs_length target entries :
  length (buildInputs target entries) =
    sum_list_with (fun entry => length entry.2) entries.
Proof.
  induction entries as [|entry entries IH]; [done|].
  rewrite buildInputs_cons, length_app, length_fmap, IH. done.
Qed.

Lemma buildInputs_fs target entries :
  Forall (fun i => InputFS i = target) (buildInputs target entries).
Proof.
  induction entries as [|entry entries IH]; [by constructor|].
  rewrite buildInputs_cons. apply Forall_app. split; [|done].
  apply Forall_fmap, Forall_forall. done.
Qed.

Lemma filter_inputsOf target entry p :
  filter (fun i => Path i = p) (inputsOf target entry) =
    if decide (entry.1 = p) then inputsOf target entry else [].
Proof.
  destruct entry as [path docs]. cbn [fst snd].
  induction docs as [|d docs IH].
  - by destruct (decide (path = p)).
  - rewrite fmap_cons, filter_cons, IH. cbn [Path].
    by destruct (decide (path = p)).
Qed.

Lemma filter_buildInputs_absent target entries p :
  p ∉ entries.*1 →
  filter (fun i => Path i = p) (buildInputs target entries) = [].
Proof.
  induction entries as [|entry entries IH]; intros Hp; [done|].
  rewrite buildInputs_cons, filter_app, filter_inputsOf.
  rewrite fmap_cons, not_elem_of_cons in Hp. destruct Hp as [Hne Hp].
  rewrite IH by done. by rewrite decide_False by done.
Qed.

(** Path by path the inputs are the documents of the entry, in its order. *)
Lemma buildInputs_at_path target entries p :
  NoDup entries.*1 →
  Contents <$> filter (fun i => Path i = p) (buildInputs target entries) =
    default [] ((list_to_map entries : gmap string (list Doc)) !! p).
Proof.
  induction entries as [|[path docs] entries IH]; intros Hnd.
  - by rewrite list_to_map_nil, lookup_empty.
  - rewrite fmap_cons in Hnd. apply NoDup_cons in Hnd as [Hnotin Hnd].
    rewrite buildInputs_cons, filter_app, filter_inputsOf, list_to_map_cons.
    cbn [fst snd] in *.
    destruct (decide (path = p)) as [<-|Hne].
    + rewrite filter_buildInputs_absent, app_nil_r by done.
      rewrite lookup_insert_eq. cbn [default].
      rewrite <- list_fmap_compose. apply list_fmap_id.
    + rewrite lookup_insert_ne by done. by apply IH.
Qed.

Lemma range_order_at_path target x m p :
  Contents <$>
    filter (fun i => Path i = p) (buildInputs target (range_order x m)) =
    default [] (m !! p).
Proof.
  pose proof (range_order_perm x m) as Hperm.
  assert (NoDup (range_order x m).*1) as Hnd.
  { rewrite Hperm. apply NoDup_fst_map_to_list. }
  rewrite buildInputs_at_path by done.
  by rewrite (list_to_map_proper _ _ Hnd Hperm), list_to_map_to_list.
Qed.

Lemma range_order_length target x m :
  length (buildInputs target (range_order x m)) =
    sum_list_with (fun entry => length entry.2) (map_to_list m).
Proof. by rewrite buildInputs_length, (range_order_perm x m). Qed.

End InputAdapter.

(** C6.  When the parser returns a non-empty mapping [m], the inputs that
    [ScanFS] builds are, path by path and in the parser's order, the documents
    of [m]: the inputs tagged with a path carry exactly the documents [m] has
    at that path, each once and unchanged (and none at a path [m] lacks),
    every input carries the scanned filesystem, and there are as many inputs
    as documents.  When the engine is obtained, this sequence is what is
    handed, whole, to [ScanInput]. *)
Theorem ScanFS_inputs `{C : Collaborators}
    (ctx : Ctx) (target : FS) (dir : string) (s : Scanner) (w : World)
    (m : gmap string (list Doc)) (x : Ext) :
  parser_ParseFS (parser s) ctx target dir (ext w) = (m, None, x) →
  size m ≠ 0 →
  let w1 := log (EvParseFS (parser s) ctx target dir) x w in
  let inputs := buildInputs target (range_order x m) in
  (∀ p, Contents <$> filter (fun i => Path i = p) inputs =
        default [] (m !! p)) ∧
  Forall (fun i => InputFS i = target) inputs ∧
  length inputs = sum_list_with (fun entry => length entry.2) (map_to_list m) ∧
  ∀ r s1 w2,
    initRegoScanner target s w1 = (r, None, s1, w2) →
    ∃ rest,
      trace (ScanFS ctx target dir s w).2 =
        trace w2 ++
          EvLog (debug s1) (length inputs) :: EvScanInput r ctx inputs :: rest.
Proof.
  intros Hparse Hsize w1 inputs.
  split; [intros p; apply range_order_at_path|].
  split; [apply buildInputs_fs|].
  split; [apply range_order_length|].
  intros r s1 w2 Hinit.
  unfold ScanFS, callParseFS. rewrite Hparse.
  apply Nat.eqb_neq in Hsize. rewrite Hsize.
  change (log (EvParseFS (parser s) ctx target dir) x w) with w1.
  change (ext w1) with x. rewrite Hinit.
  fold inputs. unfold callScanInput, callLog.
  destruct (rego_ScanInput _ _ _ _) as [[res [err|]] x']; simpl.
  - exists []. by rewrite <- !app_assoc.
  - exists [EvSetSourceAndFilesystem "" target false].
    by rewrite <- !app_assoc.
Qed.

Lemma ScanFS_inputs_witness :
  let m : gmap string (list Byte.byte) := list_to_map Demo.twoManifests in
  parser_ParseFS (Collaborators:=Demo.collaborators) (parser Demo.plain) tt
    Demo.twoManifests "." 0 = (m, None, 0) ∧
  size m ≠ 0 ∧
  ∀ p : string,
    Contents <$>
      filter (fun i => Path i = p)
        (buildInputs (T:=Demo.types) Demo.twoManifests
           (range_order (Collaborators:=Demo.collaborators) 0 m)) =
      default [] (m !! p).
Proof.
  intros m. split; [reflexivity|]. split; [vm_compute; lia|].
  exact (proj1 (ScanFS_inputs (C:=Demo.collaborators) tt Demo.twoManifests
                  "." Demo.plain Demo.world0 m 0 eq_refl
                  ltac:(vm_compute; lia))).
Defined.

(** * Provenance *)

(** C7.  When a scan of a non-empty mapping succeeds, the results returned
    are the results of the evaluation with their provenance written by one
    call of [SetSourceAndFilesystem], made after [ScanInput] has returned and
    last of all: every finding carries the empty source label, the scanned
    filesystem and the flag [false], and keeps its rule and status. *)
Theorem ScanFS_provenance `{C : Collaborators}
    (ctx : Ctx) (target : FS) (dir : string) (s : Scanner) (w : World)
    (m : gmap string (list Doc)) (x : Ext)
    (results : Results) (s' : Scanner) (w' : World) :
  parser_ParseFS (parser s) ctx target dir (ext w) = (m, None, x) →
  size m ≠ 0 →
  ScanFS ctx target dir s w = (results, None, s', w') →
  Forall (fun f => provenance f =
            Some {| sourceLabel := ""; fsRef := target; mixedFS := false |})
         results ∧
  (∃ e inputs raw w3 x4,
     rego_ScanInput e ctx inputs (ext w3) = (raw, None, x4) ∧
     w' = log (EvSetSourceAndFilesystem "" target false) x4
            (log (EvScanInput e ctx inputs) x4 w3) ∧
     results = SetSourceAndFilesystem "" target false raw ∧
     verdicts results = verdicts raw) ∧
  count isSetSourceAndFilesystem (trace w') =
    S (count isSetSourceAndFilesystem (trace w)).
Proof.
  intros Hparse Hsize. unfold ScanFS, callParseFS. rewrite Hparse.
  apply Nat.eqb_neq in Hsize. rewrite Hsize.
  set (w1 := log (EvParseFS (parser s) ctx target dir) x w).
  assert (count isSetSourceAndFilesystem
            (trace (initRegoScanner target s w1).2) =
          count isSetSourceAndFilesystem (trace w)) as Hcount.
  { rewrite initRegoScanner_count by done.
    unfold w1. rewrite count_log. cbn. lia. }
  destruct (initRegoScanner target s w1) as [[[r [err|]] s1] w2]; [done|].
  cbn [snd] in Hcount.
  set (inputs := buildInputs target (range_order (ext w1) m)).
  unfold callScanInput.
  destruct (rego_ScanInput r ctx inputs
              (ext (callLog (debug s1) (length inputs) w2)))
    as [[raw [err|]] x4] eqn:Hscan; [done|].
  unfold callSetSourceAndFilesystem. intros [= <- <- <-].
  split; [|split].
  - unfold SetSourceAndFilesystem. apply Forall_fmap, Forall_forall. done.
  - exists r, inputs, raw, (callLog (debug s1) (length inputs) w2), x4.
    split; [exact Hscan|]. split; [reflexivity|]. split; [reflexivity|].
    unfold verdicts, SetSourceAndFilesystem.
    rewrite <- list_fmap_compose. done.
  - unfold callLog. rewrite !count_log. cbn [isSetSourceAndFilesystem]. lia.
Qed.

Lemma ScanFS_provenance_witness :
  let out :=
    ScanFS (C:=Demo.collaborators) tt Demo.oneManifest "." Demo.plain
      Demo.world0 in
  size (list_to_map Demo.oneManifest : gmap string (list Byte.byte)) ≠ 0 ∧
  out.1.1.2 = None ∧
  Forall (fun f => provenance f =
            Some {| sourceLabel := ""; fsRef := Demo.oneManifest;
                    mixedFS := false |})
         out.1.1.1.
Proof.
  intros out. split; [vm_compute; lia|]. split; [reflexivity|].
  refine (proj1 (ScanFS_provenance (C:=Demo.collaborators) tt
                   Demo.oneManifest "." Demo.plain Demo.world0
                   (list_to_map Demo.oneManifest) 0
                   out.1.1.1 out.1.2 out.2 eq_refl _ _));
    [vm_compute; lia | vm_compute; reflexivity].
Defined.

(** * The stream entry point *)

(** C8.  [ScanReader] returns the nil results and the error when creating the
    directory, reading the stream or writing the file fails, never touching
    the scanner.  Otherwise it returns exactly what [ScanFS] returns on the
    memory filesystem that holds the bytes of the stream at [filename],
    scanned from ["."]: the same results, error, scanner and world, hence the
    same rules with the same statuses. *)
Theorem ScanReader_delegates `{C : Collaborators}
    (ctx : Ctx) (filename : string) (reader : Reader) (s : Scanner)
    (w : World) (m1 m2 : MemFS) (e1 e2 e3 : option Err)
    (data : list Byte.byte) (x : Ext) :
  streamDir filename = (m1, e1) →
  io_ReadAll reader (ext w) = (data, e2, x) →
  streamFile filename data = (m2, e3) →
  let w1 := log (EvReadAll reader) x w in
  (∀ err, e1 = Some err →
     ScanReader ctx filename reader s w = ([], Some err, s, w)) ∧
  (∀ err, e1 = None → e2 = Some err →
     ScanReader ctx filename reader s w = ([], Some err, s, w1)) ∧
  (∀ err, e1 = None → e2 = None → e3 = Some err →
     ScanReader ctx filename reader s w = ([], Some err, s, w1)) ∧
  (e1 = None → e2 = None → e3 = None →
     ScanReader ctx filename reader s w =
       ScanFS ctx (memfs_FS m2) "." s w1 ∧
     verdicts (ScanReader ctx filename reader s w).1.1.1 =
       verdicts (ScanFS ctx (memfs_FS m2) "." s w1).1.1.1).
Proof.
  intros Hdir Hread Hfile w1. unfold streamFile in Hfile.
  rewrite Hdir in Hfile. cbn [fst] in Hfile. unfold streamDir in Hdir.
  unfold ScanReader, callReadAll. rewrite Hdir, Hread.
  split; [|split; [|split]].
  - by intros err ->.
  - by intros err -> ->.
  - intros err -> -> ->. by rewrite Hfile.
  - intros -> -> ->. by rewrite Hfile.
Qed.

Lemma ScanReader_delegates_witness :
  streamFile (C:=Demo.collaborators) "pod.yaml" [Byte.x00] =
    (Demo.oneManifest, None) ∧
  ScanReader (C:=Demo.collaborators) tt "pod.yaml" (Some [Byte.x00])
    Demo.plain Demo.world0 =
  ScanFS (C:=Demo.collaborators) tt Demo.oneManifest "." Demo.plain
    (Demo.world 0 [EvReadAll (T:=Demo.types) (Some [Byte.x00])] 0).
Proof.
  split; [reflexivity|].
  refine (proj1 (proj2 (proj2 (proj2
    (ScanReader_delegates (C:=Demo.collaborators) tt "pod.yaml"
       (Some [Byte.x00]) Demo.plain Demo.world0 [] Demo.oneManifest
       None None None [Byte.x00] 0 eq_refl eq_refl eq_refl)))
    eq_refl eq_refl eq_refl)).
Defined.

(** * The parser of a scanner *)
Section ParserField.
Context `{C : Collaborators}.

Lemma initRegoScanner_SetSkipRequiredCheck skip srcFS s w :
  initRegoScanner srcFS (SetSkipRequiredCheck skip s) w =
    let '(r, err, s1, w1) := initRegoScanner srcFS s w in
    (r, err, SetSkipRequiredCheck skip s1, w1).
Proof.
  unfold initRegoScanner. cbn [SetSkipRequiredCheck regoScanner options debug
    loadEmbedded policyDirs policyReaders].
  destruct (regoScanner s); [done|].
  destruct (callNewScanner (options s) w) as [e w0].
  by destruct (callLoadPolicies _ _ _ _ _ _) as [[?|] ?].
Qed.

Lemma ScanFS_SetSkipRequiredCheck skip ctx target dir s w :
  ScanFS ctx target dir (SetSkipRequiredCheck skip s) w =
    let '(r, err, s1, w1) := ScanFS ctx target dir s w in
    (r, err, SetSkipRequiredCheck skip s1, w1).
Proof.
  unfold ScanFS. cbn [SetSkipRequiredCheck parser].
  destruct (callParseFS _ _ _ _ _) as [[m [err|]] w1]; [done|].
  destruct (size m =? 0); [done|].
  rewrite initRegoScanner_SetSkipRequiredCheck.
  destruct (initRegoScanner target s w1) as [[[r [err|]] s1] w2]; [done|].
  cbn [SetSkipRequiredCheck debug].
  destruct (callScanInput _ _ _ _) as [[res [err|]] w4]; [done|].
  by destruct (callSetSourceAndFilesystem _ _ _ _ _).
Qed.

Lemma ScanFS_parser ctx target dir s w :
  parser (ScanFS ctx target dir s w).1.2 = parser s.
Proof.
  destruct (ScanFS_scanner ctx target dir s w) as [->|[w1 ->]]; [done|].
  apply initRegoScanner_parser.
Qed.

Lemma ScanReader_parser ctx filename reader s w :
  parser (ScanReader ctx filename reader s w).1.2 = parser s.
Proof.
  unfold ScanReader.
  destruct (memfs_MkdirAll _ _ _) as [m1 [err|]]; [done|].
  destruct (callReadAll reader w) as [[data [err|]] w1]; [done|].
  destruct (memfs_WriteFile _ _ _ _) as [m2 [err|]]; [done|].
  apply ScanFS_parser.
Qed.

Lemma doCall_parser c s w : parser (doCall (s, w) c).1 = parser s.
Proof.
  destruct c as [c|srcFS|ctx target dir|ctx filename reader|f]; cbn [doCall fst snd].
  - apply callSetter_parser.
  - pose proof (initRegoScanner_parser srcFS s w) as H.
    by destruct (initRegoScanner srcFS s w) as [[[? ?] ?] ?].
  - pose proof (ScanFS_parser ctx target dir s w) as H.
    by destruct (ScanFS ctx target dir s w) as [[[? ?] ?] ?].
  - pose proof (ScanReader_parser ctx filename reader s w) as H.
    by destruct (ScanReader ctx filename reader s w) as [[[? ?] ?] ?].
  - done.
Qed.

Lemma options_applied_parser (opts : list ScannerOption) s :
  parser (foldl (fun acc opt => applyOption opt acc) s opts) = parser s.
Proof.
  revert s. induction opts as [|opt opts IH]; intros s; [done|].
  cbn [foldl]. by rewrite IH, applyOption_parser.
Qed.

Lemma options_applied_concat (opts : list ScannerOption) s :
  foldl (fun acc opt => applyOption opt acc) s opts =
    foldl (fun acc c => callSetter c acc) s (concat opts).
Proof.
  revert s. induction opts as [|opt opts IH]; intros s; [done|].
  cbn [foldl concat]. rewrite foldl_app. apply IH.
Qed.

(** A field that each setter either assigns or leaves holds, after a
    sequence of calls, the last value assigned. *)
Lemma setters_last {A} (get : Scanner → A) (pick : Setter → option A) :
  (∀ c s, get (callSetter c s) = default (get s) (pick c)) →
  ∀ cs s,
    get (foldl (fun acc c => callSetter c acc) s cs) =
      lastSetting pick (get s) cs.
Proof.
  intros Hget cs. unfold lastSetting.
  induction cs as [|c cs IH]; intros s; [done|].
  cbn [foldl omap list_omap]. rewrite IH, Hget.
  destruct (pick c) as [a|]; [|done].
  rewrite last_cons. by destruct (last (omap pick cs)).
Qed.

End ParserField.

(** C10.  The parser is built in [NewScanner], after the options have run on
    a scanner that has none, with the skip flag the options ask for: the
    value of the last [SetSkipRequiredCheck] call they make, [false] when
    they make none.  No method call changes the [parser] field afterwards.
    [SetSkipRequiredCheck] writes the field [skipRequired] and no other, so a
    scan after it parses with the same parser and returns what it would have
    returned without the call. *)
Theorem parser_fixed_by_NewScanner `{C : Collaborators} :
  (∀ opts : list ScannerOption,
     let asked := lastSetting pickSkipRequired false (concat opts) in
     parser (foldl (fun acc opt => applyOption opt acc) (zeroScanner opts)
               opts) = None ∧
     parser (NewScanner opts) =
       Some (ParserNew [ParserWithSkipRequiredCheck asked]) ∧
     skipRequired (NewScanner opts) = asked) ∧
  (∀ (c : Call) (s : Scanner) (w : World),
     parser (doCall (s, w) c).1 = parser s) ∧
  (∀ (skip : bool) (s : Scanner),
     SetSkipRequiredCheck skip s =
       {| debug := debug s; options := options s; policyDirs := policyDirs s;
          policyReaders := policyReaders s; regoScanner := regoScanner s;
          parser := parser s; skipRequired := skip;
          loadEmbedded := loadEmbedded s; frameworks := frameworks s;
          spec := spec s |}) ∧
  (∀ (skip : bool) (ctx : Ctx) (target : FS) (dir : string) (s : Scanner)
     (w : World),
     callParseFS (parser (SetSkipRequiredCheck skip s)) ctx target dir w =
       callParseFS (parser s) ctx target dir w ∧
     ScanFS ctx target dir (SetSkipRequiredCheck skip s) w =
       let '(r, err, s1, w1) := ScanFS ctx target dir s w in
       (r, err, SetSkipRequiredCheck skip s1, w1)).
Proof.
  split; [|split; [|split]].
  - intros opts asked.
    assert (skipRequired
              (foldl (fun acc opt => applyOption opt acc) (zeroScanner opts)
                 opts) = asked) as Hskip.
    { rewrite options_applied_concat.
      by rewrite (setters_last skipRequired pickSkipRequired)
        by (by intros []). }
    split; [by rewrite options_applied_parser|].
    unfold NewScanner. cbn [set_parser parser skipRequired].
    by rewrite Hskip.
  - intros c s w. apply doCall_parser.
  - done.
  - intros skip ctx target dir s w. split; [done|].
    apply ScanFS_SetSkipRequiredCheck.
Qed.

(** * A mapping without documents *)
Section NoDocuments.
Context `{C : Collaborators}.

Lemma buildInputs_no_documents target (entries : list (string * list Doc)) :
  Forall (fun entry => entry.2 = []) entries →
  buildInputs target entries = [].
Proof.
  induction 1 as [|entry entries Hentry _ IH]; [done|].
  by rewrite buildInputs_cons, Hentry, IH.
Qed.

Lemma range_order_no_documents target x (m : gmap string (list Doc)) :
  (∀ p docs, m !! p = Some docs → docs = []) →
  buildInputs target (range_order x m) = [].
Proof.
  intros Hm. apply buildInputs_no_documents, Forall_forall.
  intros [p docs] Hin. rewrite (range_order_perm x m) in Hin.
  apply elem_of_map_to_list in Hin. by apply (Hm p).
Qed.

(** With an empty cache [initRegoScanner] builds one engine and loads the
    policies once. *)
Lemma initRegoScanner_empty_counts srcFS s w :
  regoScanner s = None →
  count isNewScanner (trace (initRegoScanner srcFS s w).2) =
    S (count isNewScanner (trace w)) ∧
  count isLoadPolicies (trace (initRegoScanner srcFS s w).2) =
    S (count isLoadPolicies (trace w)).
Proof.
  intros Hnil. rewrite (initRegoScanner_empty _ _ _ Hnil). cbv zeta.
  unfold constructed, callSetParentDebugLogger, callNewScanner.
  destruct (rego_LoadPolicies _ _ _ _ _ _) as [[err|] x]; cbn [snd];
    rewrite !count_log; cbn [trace]; rewrite !count_snoc; cbn; lia.
Qed.

(** What [ScanFS] does once the parser has returned a non-empty mapping. *)
Lemma ScanFS_nonempty ctx target dir s w (m : gmap string (list Doc)) x :
  parser_ParseFS (parser s) ctx target dir (ext w) = (m, None, x) →
  size m ≠ 0 →
  ScanFS ctx target dir s w =
    let w1 := log (EvParseFS (parser s) ctx target dir) x w in
    let inputs := buildInputs target (range_order x m) in
    let '(r, err, s1, w2) := initRegoScanner target s w1 in
    match err with
    | Some err => ([], Some err, s1, w2)
    | None =>
        let '(results, err, w4) :=
          callScanInput r ctx inputs (callLog (debug s1) (length inputs) w2) in
        match err with
        | Some err => ([], Some err, s1, w4)
        | None =>
            (SetSourceAndFilesystem "" target false results, None, s1,
             log (EvSetSourceAndFilesystem "" target false) (ext w4) w4)
        end
    end.
Proof.
  intros Hparse Hsize. unfold ScanFS, callParseFS. rewrite Hparse.
  apply Nat.eqb_neq in Hsize. by rewrite Hsize.
Qed.

Lemma ScanFS_nonempty_counts p ctx target dir s w
    (m : gmap string (list Doc)) x :
  parser_ParseFS (parser s) ctx target dir (ext w) = (m, None, x) →
  size m ≠ 0 →
  (∀ q c f d, p (EvParseFS q c f d) = false) →
  (∀ l n, p (EvLog l n) = false) →
  (∀ e c i, p (EvScanInput e c i) = false) →
  (∀ src f b, p (EvSetSourceAndFilesystem src f b) = false) →
  count p (trace (ScanFS ctx target dir s w).2) =
    count p (trace (initRegoScanner target s
                      (log (EvParseFS (parser s) ctx target dir) x w)).2).
Proof.
  intros Hparse Hsize Hp1 Hp2 Hp3 Hp4.
  rewrite (ScanFS_nonempty _ _ _ _ _ _ _ Hparse Hsize). cbv zeta.
  destruct (initRegoScanner target s _) as [[[r [err|]] s1] w2]; [done|].
  unfold callScanInput, callLog.
  destruct (rego_ScanInput _ _ _ _) as [[res [err|]] x4]; cbn [snd];
    rewrite !count_log, ?Hp2, ?Hp3, ?Hp4; lia.
Qed.

End NoDocuments.

(** C2, as the code has it.  The short cut of [ScanFS] is taken on the number
    of paths, not of documents.  When the parser returns a non-empty mapping
    whose document lists are all empty, the input sequence is empty and the
    scan goes on like any other: it obtains the engine from
    [initRegoScanner], which builds it and loads the policies when the cache
    is empty, logs, and calls [ScanInput] on the empty sequence; it returns
    the error of the initialisation or of the evaluation if there is one,
    and otherwise the results of the evaluation with their provenance. *)
Theorem ScanFS_no_documents `{C : Collaborators}
    (ctx : Ctx) (target : FS) (dir : string) (s : Scanner) (w : World)
    (m : gmap string (list Doc)) (x : Ext) :
  parser_ParseFS (parser s) ctx target dir (ext w) = (m, None, x) →
  size m ≠ 0 →
  (∀ p docs, m !! p = Some docs → docs = []) →
  let w1 := log (EvParseFS (parser s) ctx target dir) x w in
  buildInputs target (range_order x m) = [] ∧
  ScanFS ctx target dir s w =
    (let '(r, err, s1, w2) := initRegoScanner target s w1 in
     match err with
     | Some err => ([], Some err, s1, w2)
     | None =>
         let '(results, err, w4) :=
           callScanInput r ctx [] (callLog (debug s1) 0 w2) in
         match err with
         | Some err => ([], Some err, s1, w4)
         | None =>
             (SetSourceAndFilesystem "" target false results, None, s1,
              log (EvSetSourceAndFilesystem "" target false) (ext w4) w4)
         end
     end) ∧
  (regoScanner s = None →
   count isNewScanner (trace (ScanFS ctx target dir s w).2) =
     S (count isNewScanner (trace w)) ∧
   count isLoadPolicies (trace (ScanFS ctx target dir s w).2) =
     S (count isLoadPolicies (trace w))).
Proof.
  intros Hparse Hsize Hdocs w1.
  pose proof (range_order_no_documents target x m Hdocs) as Hinputs.
  split; [done|]. split.
  - rewrite (ScanFS_nonempty _ _ _ _ _ _ _ Hparse Hsize). cbv zeta.
    by rewrite Hinputs.
  - intros Hnil.
    rewrite !(ScanFS_nonempty_counts _ _ _ _ _ _ _ _ Hparse Hsize) by done.
    destruct (initRegoScanner_empty_counts target s
                (log (EvParseFS (parser s) ctx target dir) x w) Hnil)
      as [-> ->].
    rewrite !count_log. cbn. lia.
Qed.

Lemma ScanFS_no_documents_witness :
  let m : gmap string (list Byte.byte) := {["blank.yaml" := []]} in
  parser_ParseFS (Collaborators:=Demo.collaborators) (parser Demo.plain) tt
    Demo.blankFile "." 0 = (m, None, 0) ∧
  size m ≠ 0 ∧
  (∀ p docs, m !! p = Some docs → docs = []) ∧
  buildInputs (T:=Demo.types) Demo.blankFile
    (range_order (Collaborators:=Demo.collaborators) 0 m) = [].
Proof.
  intros m.
  assert (∀ p docs, m !! p = Some docs → docs = []) as Hdocs.
  { intros p docs H. apply lookup_singleton_Some in H. by destruct H. }
  split; [reflexivity|]. split; [vm_compute; lia|]. split; [exact Hdocs|].
  exact (proj1 (ScanFS_no_documents (C:=Demo.collaborators) tt Demo.blankFile
                  "." Demo.plain Demo.world0 m 0 eq_refl
                  ltac:(vm_compute; lia) Hdocs)).
Defined.

(** C2, as stated, fails.  The file ["blank.yaml"] holds no document: the
    parser returns a mapping with one path and no document.  The scan then
    builds an engine, loads the policies and evaluates the empty batch, where
    the scan of the empty tree does none of it; and when the policies cannot
    be loaded it returns that error, where the scan of the empty tree returns
    no error. *)
Lemma ScanFS_no_documents_not_short_cut :
  let blank :=
    ScanFS (C:=Demo.collaborators) tt Demo.blankFile "." Demo.plain
      Demo.world0 in
  let empty :=
    ScanFS (C:=Demo.collaborators) tt Demo.emptyTree "." Demo.plain
      Demo.world0 in
  parser_ParseFS (Collaborators:=Demo.collaborators) (parser Demo.plain) tt
    Demo.blankFile "." 0 = ({["blank.yaml" := []]}, None, 0) ∧
  (regoScanner empty.1.2 = None ∧
   count isNewScanner (trace empty.2) = 0 ∧
   count isLoadPolicies (trace empty.2) = 0 ∧
   count isScanInput (trace empty.2) = 0) ∧
  (regoScanner blank.1.2 = Some 0 ∧
   count isNewScanner (trace blank.2) = 1 ∧
   count isLoadPolicies (trace blank.2) = 1 ∧
   count isScanInput (trace blank.2) = 1) ∧
  (ScanFS (C:=Demo.collaborators) tt Demo.emptyTree "."
     Demo.withMissingPolicies Demo.world0).1.1 = ([], None) ∧
  (ScanFS (C:=Demo.collaborators) tt Demo.blankFile "."
     Demo.withMissingPolicies Demo.world0).1.1 =
    ([], Some "policy directory not found").
Proof. vm_compute. repeat split. Qed.

(** * Properties of concurrent scans *)
Section ConcurrentProperties.
Context `{C : Collaborators}.
Implicit Types (tr ev : list Event) (s : Scanner) (ts : list Thread)
  (t : Thread).

Lemma lookup_insert_cases ts i j t t' tj :
  ts !! i = Some t → <[i:=t']> ts !! j = Some tj →
  (j = i ∧ tj = t') ∨ (j ≠ i ∧ ts !! j = Some tj).
Proof.
  intros Hi Hj. destruct (decide (j = i)) as [->|Hne].
  - left. rewrite list_lookup_insert_eq in Hj by eauto using lookup_lt_Some.
    by injection Hj.
  - right. by rewrite list_lookup_insert_ne in Hj.
Qed.

Lemma balanced_quiet tr ev s n k :
  count isNewScanner ev = 0 → count isLoadFailed ev = 0 →
  count isLoadOk ev = 0 →
  balanced tr s n k → balanced (tr ++ ev) s n k.
Proof.
  unfold balanced. intros H1 H2 H3 [Ha Hb]. rewrite !count_app. lia.
Qed.

Lemma scansOn_change c c' tr :
  c' = c ∨ c = None → Forall (scansOn c) tr → Forall (scansOn c') tr.
Proof.
  intros [-> | ->]; [done|]. intros Hall.
  eapply Forall_impl; [exact Hall|]. intros [] H; try done.
  destruct H as [_ [? [=]]].
Qed.

(** A goroutine moves outside the critical section. *)
Lemma good_outside tr ev s b ts i t t' :
  Good tr s b ts → ts !! i = Some t →
  critical (t_pc t) = false → critical (t_pc t') = false →
  (∀ r, engineArg (t_pc t') = Some r →
        r = regoScanner s ∧ is_Some (regoScanner s)) →
  count isNewScanner ev = 0 → count isLoadFailed ev = 0 →
  count isLoadOk ev = 0 → Forall (scansOn (regoScanner s)) ev →
  Good (tr ++ ev) s b (<[i:=t']> ts).
Proof.
  intros [Hm Hf Hh Hc He Hs] Hi Hnc Hnc' He' H1 H2 H3 Hev. split.
  - intros j k tj tk Hj Hk Hcj Hck.
    destruct (lookup_insert_cases _ _ _ _ _ _ Hi Hj) as [[-> ->]|[_ Hj']];
      [congruence|].
    destruct (lookup_insert_cases _ _ _ _ _ _ Hi Hk) as [[-> ->]|[_ Hk']];
      [congruence|].
    eauto.
  - intros Hb. apply balanced_quiet; auto.
  - intros Hb. destruct (Hh Hb) as (j & tj & Hj & Hcj). exists j, tj.
    split; [|done]. rewrite list_lookup_insert_ne; [done|].
    intros ->. congruence.
  - intros j tj Hj Hcj.
    destruct (lookup_insert_cases _ _ _ _ _ _ Hi Hj) as [[-> ->]|[_ Hj']];
      [congruence|].
    destruct (Hc j tj Hj' Hcj) as (? & ? & ?).
    split; [done|]. split; [by apply balanced_quiet|done].
  - intros j tj r Hj Hr.
    destruct (lookup_insert_cases _ _ _ _ _ _ Hi Hj) as [[-> ->]|[_ Hj']];
      eauto.
  - by apply Forall_app.
Qed.

(** A goroutine takes the free mutex. *)
Lemma good_acquire tr s ts i t t' inputs :
  Good tr s false ts → ts !! i = Some t →
  t_pc t' = AtCheck inputs →
  Good tr s true (<[i:=t']> ts).
Proof.
  intros [Hm Hf Hh Hc He Hs] Hi Hpc.
  assert (∀ j tj, <[i:=t']> ts !! j = Some tj →
                  critical (t_pc tj) = true → j = i ∧ tj = t') as Honly.
  { intros j tj Hj Hcj.
    destruct (lookup_insert_cases _ _ _ _ _ _ Hi Hj) as [?|[_ Hj']]; [done|].
    by destruct (Hc j tj Hj' Hcj) as [? _]. }
  split.
  - intros j k tj tk Hj Hk Hcj Hck.
    destruct (Honly _ _ Hj Hcj) as [-> _].
    by destruct (Honly _ _ Hk Hck) as [-> _].
  - done.
  - intros _. exists i, t'. rewrite Hpc. split; [|done].
    apply list_lookup_insert_eq. eauto using lookup_lt_Some.
  - intros j tj Hj Hcj. destruct (Honly _ _ Hj Hcj) as [-> ->].
    rewrite Hpc. cbn. split; [done|]. split; [by apply Hf|done].
  - intros j tj r Hj Hr.
    destruct (lookup_insert_cases _ _ _ _ _ _ Hi Hj) as [[-> ->]|[_ Hj']];
      [by rewrite Hpc in Hr|eauto].
  - done.
Qed.

(** The goroutine that holds the mutex moves inside the critical section. *)
Lemma good_inside tr tr2 s s' b ts i t t' :
  Good tr s b ts → ts !! i = Some t →
  critical (t_pc t) = true → critical (t_pc t') = true →
  balanced tr2 s' (pendingNew (t_pc t')) (pendingStore (t_pc t')) →
  (sawEmpty (t_pc t') = true → regoScanner s' = None) →
  (∀ r, engineArg (t_pc t') = Some r →
        r = regoScanner s' ∧ is_Some (regoScanner s')) →
  regoScanner s' = regoScanner s ∨ regoScanner s = None →
  Forall (scansOn (regoScanner s')) tr2 →
  Good tr2 s' b (<[i:=t']> ts).
Proof.
  intros [Hm Hf Hh Hc He Hs] Hi Hct Hct' Hbal Hsaw He' Hcache Hscans.
  destruct (Hc i t Hi Hct) as (Hb & _ & _).
  assert (∀ j tj, <[i:=t']> ts !! j = Some tj →
                  critical (t_pc tj) = true → j = i ∧ tj = t') as Honly.
  { intros j tj Hj Hcj.
    destruct (lookup_insert_cases _ _ _ _ _ _ Hi Hj) as [?|[Hne Hj']]; [done|].
    by specialize (Hm j i tj t Hj' Hi Hcj Hct). }
  split.
  - intros j k tj tk Hj Hk Hcj Hck.
    destruct (Honly _ _ Hj Hcj) as [-> _].
    by destruct (Honly _ _ Hk Hck) as [-> _].
  - congruence.
  - intros _. exists i, t'. split; [|done].
    apply list_lookup_insert_eq. eauto using lookup_lt_Some.
  - intros j tj Hj Hcj. by destruct (Honly _ _ Hj Hcj) as [-> ->].
  - intros j tj r Hj Hr.
    destruct (lookup_insert_cases _ _ _ _ _ _ Hi Hj) as [[-> ->]|[_ Hj']];
      [eauto|].
    destruct (He j tj r Hj' Hr) as [-> Hsome].
    destruct Hcache as [-> | Hnone]; [done|].
    rewrite Hnone in Hsome. by destruct Hsome.
  - done.
Qed.

(** The goroutine that holds the mutex releases it. *)
Lemma good_release tr s b ts i t t' :
  Good tr s b ts → ts !! i = Some t →
  critical (t_pc t) = true →
  pendingNew (t_pc t) = 0 → pendingStore (t_pc t) = 0 →
  critical (t_pc t') = false →
  (∀ r, engineArg (t_pc t') = Some r →
        r = regoScanner s ∧ is_Some (regoScanner s)) →
  Good tr s false (<[i:=t']> ts).
Proof.
  intros [Hm Hf Hh Hc He Hs] Hi Hct Hpn Hps Hct' He'.
  destruct (Hc i t Hi Hct) as (Hb & Hbal & _). rewrite Hpn, Hps in Hbal.
  assert (∀ j tj, <[i:=t']> ts !! j = Some tj →
                  critical (t_pc tj) = true → False) as Hnone.
  { intros j tj Hj Hcj.
    destruct (lookup_insert_cases _ _ _ _ _ _ Hi Hj) as [[-> ->]|[Hne Hj']];
      [congruence|].
    by specialize (Hm j i tj t Hj' Hi Hcj Hct). }
  split.
  - intros j k tj tk Hj _ Hcj _. by destruct (Hnone _ _ Hj Hcj).
  - done.
  - done.
  - intros j tj Hj Hcj. by destruct (Hnone _ _ Hj Hcj).
  - intros j tj r Hj Hr.
    destruct (lookup_insert_cases _ _ _ _ _ _ Hi Hj) as [[-> ->]|[_ Hj']];
      eauto.
  - done.
Qed.

(** Every move of a goroutine keeps the invariant; it only adds to the log,
    and it changes the cache only to fill it when it is empty. *)
Lemma stepThread_good tr s b w ts i t t' sh' :
  Good tr s b ts → ts !! i = Some t →
  stepThread t {| sh_scanner := s; sh_locked := b; sh_world := w |} =
    Some (t', sh') →
  ∃ ev, trace (sh_world sh') = trace w ++ ev ∧
        Good (tr ++ ev) (sh_scanner sh') (sh_locked sh') (<[i:=t']> ts) ∧
        (regoScanner (sh_scanner sh') = regoScanner s ∨ regoScanner s = None).
Proof.
  intros HG Hi Hstep.
  pose proof (good_critical _ _ _ _ HG i t Hi) as Hc.
  pose proof (good_engine _ _ _ _ HG i t) as He.
  pose proof (good_scans _ _ _ _ HG) as Hs.
  unfold stepThread in Hstep. cbn [sh_scanner sh_world sh_locked] in Hstep.
  destruct (t_pc t) as [|m|inputs|inputs|inputs|inputs e|inputs e|inputs e
                        |inputs [r oerr]|inputs r|inputs r|results|ret]
    eqn:Hpc.
  - (* ParseFS *)
    unfold callParseFS in Hstep.
    destruct (parser_ParseFS _ _ _ _ _) as [[m [err|]] x];
      injection Hstep as <- <-;
      (eexists [_]; split; [reflexivity|]; split; [|by left];
       apply (good_outside _ _ _ _ _ _ _ _ HG Hi); rewrite ?Hpc; try done;
       by repeat constructor).
  - (* the length test and the two loops *)
    exists []. rewrite !app_nil_r.
    destruct (size m =? 0); injection Hstep as <- <-;
      (split; [done|]; split; [|by left];
       rewrite <- (app_nil_r tr);
       apply (good_outside _ _ _ _ _ _ _ _ HG Hi); rewrite ?Hpc; done).
  - (* Lock *)
    destruct b; [done|]. injection Hstep as <- <-.
    exists []. rewrite !app_nil_r. split; [done|]. split; [|by left].
    by apply (good_acquire _ _ _ _ t _ inputs HG Hi).
  - (* the test of the cache *)
    destruct (Hc eq_refl) as (Hb & Hbal & _).
    exists []. rewrite !app_nil_r.
    destruct (regoScanner s) as [e|] eqn:Hcache; injection Hstep as <- <-;
      cbn [sh_scanner sh_locked sh_world];
      (split; [done|]; split; [|by left]);
      apply (good_inside _ _ _ _ _ _ _ _ _ HG Hi);
      rewrite ?Hpc, ?Hcache; cbn [at_pc t_pc]; try done; try (by left).
    cbn. intros r' [= <-]. eauto.
  - (* rego.NewScanner *)
    destruct (Hc eq_refl) as (Hb & [H1 H2] & Hnone). specialize (Hnone eq_refl).
    injection Hstep as <- <-. eexists [_]. split; [reflexivity|].
    split; [|by left].
    apply (good_inside _ _ _ _ _ _ _ _ _ HG Hi); rewrite ?Hpc;
      cbn [at_pc t_pc sh_scanner]; try done; try (by left).
    + split; rewrite !count_snoc; cbn in *; lia.
    + apply Forall_app. split; [done|]. by repeat constructor.
  - (* SetParentDebugLogger *)
    destruct (Hc eq_refl) as (Hb & [H1 H2] & Hnone). specialize (Hnone eq_refl).
    injection Hstep as <- <-. eexists [_]. split; [reflexivity|].
    split; [|by left].
    apply (good_inside _ _ _ _ _ _ _ _ _ HG Hi); rewrite ?Hpc;
      cbn [at_pc t_pc sh_scanner]; try done; try (by left).
    + split; rewrite !count_snoc; cbn in *; lia.
    + apply Forall_app. split; [done|]. by repeat constructor.
  - (* LoadPolicies *)
    destruct (Hc eq_refl) as (Hb & [H1 H2] & Hnone). specialize (Hnone eq_refl).
    unfold callLoadPolicies in Hstep.
    destruct (rego_LoadPolicies _ _ _ _ _ _) as [[err|] x];
      injection Hstep as <- <-;
      (eexists [_]; split; [reflexivity|]; split; [|by left];
       apply (good_inside _ _ _ _ _ _ _ _ _ HG Hi); rewrite ?Hpc;
       cbn [at_pc t_pc sh_scanner]; try done; try (by left);
       [split; rewrite !count_snoc; cbn in *; lia
       |apply Forall_app; split; [done|]; by repeat constructor]).
  - (* the store into the cache *)
    destruct (Hc eq_refl) as (Hb & [H1 H2] & Hnone). specialize (Hnone eq_refl).
    injection Hstep as <- <-. exists []. rewrite !app_nil_r.
    split; [done|]. split; [|by right].
    apply (good_inside _ _ _ _ _ _ _ _ _ HG Hi); rewrite ?Hpc;
      cbn [at_pc t_pc sh_scanner]; try done; try (by right).
    + unfold balanced, cached in *. rewrite Hnone in H2. cbn in *. lia.
    + cbn. intros r' [= <-]. eauto.
    + eapply scansOn_change; [|exact Hs]. by right.
  - (* Unlock *)
    exists []. rewrite !app_nil_r.
    destruct oerr as [err|]; injection Hstep as <- <-;
      (split; [done|]; split; [|by left]);
      apply (good_release _ _ _ _ _ _ _ HG Hi); rewrite ?Hpc; try done.
    cbn. intros r' [= <-]. by apply He.
  - (* Log *)
    injection Hstep as <- <-. eexists [_]. split; [reflexivity|].
    split; [|by left].
    apply (good_outside _ _ _ _ _ _ _ _ HG Hi); rewrite ?Hpc; try done.
    + cbn. intros r' [= <-]. by apply He.
    + by repeat constructor.
  - (* ScanInput *)
    destruct (He r Hi eq_refl) as [Hr Hsome].
    unfold callScanInput in Hstep.
    destruct (rego_ScanInput _ _ _ _) as [[res [err|]] x];
      injection Hstep as <- <-;
      (eexists [_]; split; [reflexivity|]; split; [|by left];
       apply (good_outside _ _ _ _ _ _ _ _ HG Hi); rewrite ?Hpc; try done;
       by repeat constructor).
  - (* SetSourceAndFilesystem *)
    injection Hstep as <- <-. eexists [_]. split; [reflexivity|].
    split; [|by left].
    apply (good_outside _ _ _ _ _ _ _ _ HG Hi); rewrite ?Hpc; try done.
    by repeat constructor.
  - (* returned *)
    done.
Qed.

End ConcurrentProperties.

Section Runs.
Context `{C : Collaborators}.
Implicit Types (tr ev : list Event) (s : Scanner) (ts : list Thread)
  (t : Thread) (cfg : Config).

Lemma runStep_inv tr0 cfg i :
  Inv tr0 cfg →
  Inv tr0 (runStep cfg i) ∧
  ∀ e, regoScanner (sh_scanner (shared cfg)) = Some e →
       regoScanner (sh_scanner (shared (runStep cfg i))) = Some e.
Proof.
  intros (tr & Htr & HG). unfold runStep.
  destruct (threads cfg !! i) as [t|] eqn:Hi; [|by split; [exists tr|]].
  destruct (stepThread t (shared cfg)) as [[t' sh']|] eqn:Hstep;
    [|by split; [exists tr|]].
  destruct cfg as [[s b w] ts]. cbn [shared threads sh_scanner sh_locked
    sh_world] in *.
  destruct (stepThread_good _ _ _ _ _ _ _ _ _ HG Hi Hstep)
    as (ev & Hev & HG' & Hcache).
  split.
  - exists (tr ++ ev). cbn [shared threads]. split; [|done].
    by rewrite Hev, Htr, app_assoc.
  - intros e He. destruct Hcache as [-> | Hnone]; congruence.
Qed.

Lemma run_inv tr0 schedule cfg :
  Inv tr0 cfg →
  Inv tr0 (run schedule cfg) ∧
  ∀ e, regoScanner (sh_scanner (shared cfg)) = Some e →
       regoScanner (sh_scanner (shared (run schedule cfg))) = Some e.
Proof.
  unfold run. revert cfg.
  induction schedule as [|i schedule IH]; intros cfg Hinv; [done|].
  cbn [foldl]. destruct (runStep_inv tr0 cfg i Hinv) as [Hinv' Hkeep].
  destruct (IH _ Hinv') as [Hinv'' Hkeep']. split; [done|]. eauto.
Qed.

Lemma start_inv s w calls :
  regoScanner s = None → Inv (trace w) (start s w calls).
Proof.
  intros Hnone. exists []. split; [by rewrite app_nil_r|].
  assert (∀ i t, (spawn <$> calls) !! i = Some t → t_pc t = AtParse) as Hpc.
  { intros i t Hi. rewrite list_lookup_fmap in Hi.
    apply fmap_Some in Hi as (call & _ & ->). done. }
  cbn [start shared threads sh_scanner sh_locked].
  split.
  - intros i j ti tj Hi _ Hci _. by rewrite (Hpc _ _ Hi) in Hci.
  - intros _. unfold balanced, cached. by rewrite Hnone.
  - done.
  - intros i t Hi Hci. by rewrite (Hpc _ _ Hi) in Hci.
  - intros i t r Hi Hr. by rewrite (Hpc _ _ Hi) in Hr.
  - constructor.
Qed.

Lemma Inv_since w cfg tr :
  trace (sh_world (shared cfg)) = trace w ++ tr → since w cfg = tr.
Proof. intros H. unfold since. by rewrite H, drop_app_length. Qed.

(** The books at any point of a run. *)
Lemma good_counts tr s b ts :
  Good tr s b ts →
  count isLoadOk tr ≤ 1 ∧
  count isLoadFailed tr + count isLoadOk tr ≤ count isNewScanner tr ∧
  count isNewScanner tr ≤ count isLoadFailed tr + 1 ∧
  (is_Some (regoScanner s) →
   count isLoadOk tr = 1 ∧
   count isNewScanner tr = count isLoadFailed tr + 1).
Proof.
  intros HG. destruct b.
  - destruct (good_held _ _ _ _ HG eq_refl) as (i & t & Hi & Hct).
    destruct (good_critical _ _ _ _ HG i t Hi Hct) as (_ & [H1 H2] & Hsaw).
    unfold cached in *.
    destruct (t_pc t); try done; cbn in *;
      destruct (regoScanner s) as [cache|] eqn:Hcache;
      try (by specialize (Hsaw eq_refl));
      (split; [lia|]; split; [lia|]; split; [lia|];
       intros [? Heq]; try discriminate Heq; lia).
  - destruct (good_free _ _ _ _ HG eq_refl) as [H1 H2]. unfold cached in *.
    destruct (regoScanner s) as [e|] eqn:Hcache;
      (split; [lia|]; split; [lia|]; split; [lia|];
       intros [? Heq]; try discriminate Heq; lia).
Qed.

Lemma heldEngine_engineArg t e :
  heldEngine t = Some e → engineArg (t_pc t) = Some (Some e).
Proof.
  unfold heldEngine. destruct (t_pc t) as [| | | | | | | |? [[?|] [?|]]|? [?|]
                                          |? [?|]| |]; try done; by intros [= ->].
Qed.

(** A goroutine that runs alone does what the sequential [ScanFS] does:
    twelve moves take it through the longest path. *)
Lemma run_alone ctx target dir s w :
  run (replicate 12 0) (start s w [(ctx, target, dir)]) =
    let '(r, err, s', w') := ScanFS ctx target dir s w in
    {| shared := {| sh_scanner := s'; sh_locked := false; sh_world := w' |};
       threads := [{| t_ctx := ctx; t_target := target; t_dir := dir;
                      t_pc := Returned (r, err) |}] |}.
Proof.
  unfold ScanFS, initRegoScanner, run, start.
  cbn [replicate foldl fmap list_fmap spawn fst snd].
  unfold runStep at 12. cbn.
  destruct (callParseFS (parser s) ctx target dir w) as [[m [err|]] w1];
    [done|].
  cbn. destruct (size m =? 0); [done|]. cbn.
  destruct (regoScanner s) as [e|]; cbn.
  - destruct (callScanInput _ _ _ _) as [[res [err|]] w4]; [done|]. done.
  - destruct (callLoadPolicies _ _ _ _ _ _) as [[err|] w3]; [done|]. cbn.
    destruct (callScanInput _ _ _ _) as [[res [err|]] w4]; [done|]. done.
Qed.

End Runs.

(** C9, as the code has it.  Any number of goroutines call [ScanFS] on a
    scanner with an empty cache, and the runtime interleaves them in any
    way.  At every point of the run: at most one policy load has succeeded;
    an engine was built for every load logged, and at most one more than the
    loads that failed, so at most one in all when no load fails; once the
    cache holds an engine one load has succeeded, the engines built are one
    more than the failed loads, and the cache keeps that engine for the rest
    of the run; the engine a goroutine holds after [initRegoScanner] is the
    cached one, and every evaluation of the run was made on it. *)
Theorem concurrent_scans_one_cached_engine `{C : Collaborators}
    (s : Scanner) (w : World) (calls : list (Ctx * FS * string))
    (schedule : list nat) :
  regoScanner s = None →
  let cfg := run schedule (start s w calls) in
  let tr := since w cfg in
  let cache := regoScanner (sh_scanner (shared cfg)) in
  trace (sh_world (shared cfg)) = trace w ++ tr ∧
  count isLoadOk tr ≤ 1 ∧
  count isLoadFailed tr + count isLoadOk tr ≤ count isNewScanner tr ∧
  count isNewScanner tr ≤ count isLoadFailed tr + 1 ∧
  (is_Some cache →
   count isLoadOk tr = 1 ∧
   count isNewScanner tr = count isLoadFailed tr + 1) ∧
  (∀ t e, t ∈ threads cfg → heldEngine t = Some e → cache = Some e) ∧
  Forall (scansOn cache) tr ∧
  (∀ more e,
     cache = Some e →
     regoScanner (sh_scanner (shared (run more cfg))) = Some e).
Proof.
  intros Hnone cfg tr cache.
  destruct (run_inv (trace w) schedule _ (start_inv s w calls Hnone))
    as [Hinv _].
  pose proof Hinv as (tr' & Htr & HG). fold cfg in Htr, HG, Hinv.
  assert (tr = tr') as -> by (by apply Inv_since).
  destruct (good_counts _ _ _ _ HG) as (H1 & H2 & H3 & H4).
  split; [done|]. split; [done|]. split; [done|]. split; [done|].
  split; [done|]. split; [|split].
  - intros t e Ht Hheld. apply list_elem_of_lookup in Ht as [i Hi].
    destruct (good_engine _ _ _ _ HG i t _ Hi
                (heldEngine_engineArg _ _ Hheld)) as [Heq _].
    exact (eq_sym Heq).
  - apply (good_scans _ _ _ _ HG).
  - intros more e. by apply (run_inv (trace w) more cfg Hinv).
Qed.

Lemma concurrent_scans_one_cached_engine_witness :
  let cfg :=
    run (C:=Demo.collaborators) (concat (replicate 20 [0; 1]))
      (start Demo.plain Demo.world0
         [(tt, Demo.oneManifest, "."); (tt, Demo.twoManifests, ".")]) in
  regoScanner Demo.plain = None ∧
  hasReturned <$> threads cfg = [true; true] ∧
  count isLoadOk (since Demo.world0 cfg) = 1 ∧
  count isNewScanner (since Demo.world0 cfg) =
    count isLoadFailed (since Demo.world0 cfg) + 1.
Proof.
  intros cfg. split; [reflexivity|]. split; [reflexivity|].
  refine (proj1 (proj2 (proj2 (proj2 (proj2
    (concurrent_scans_one_cached_engine (C:=Demo.collaborators) Demo.plain
       Demo.world0
       [(tt, Demo.oneManifest, "."); (tt, Demo.twoManifests, ".")]
       (concat (replicate 20 [0; 1])) eq_refl))))) _).
  vm_compute. eexists. reflexivity.
Defined.

(** C9, as stated, fails.  Two goroutines scan with a scanner whose policy
    directory is missing.  Both parse and build their inputs; goroutine 0
    takes the mutex while goroutine 1 waits for it; each in turn builds an
    engine, fails to load the policies and returns the error.  The
    construction has run twice, two engines have been built, and no call has
    got one. *)
Lemma concurrent_scans_build_twice :
  let cfg :=
    run (C:=Demo.collaborators)
      [0; 1; 0; 1; 0; 1; 0; 0; 0; 0; 0; 1; 1; 1; 1; 1; 1]
      (start Demo.withMissingPolicies Demo.world0
         [(tt, Demo.oneManifest, "."); (tt, Demo.twoManifests, ".")]) in
  regoScanner Demo.withMissingPolicies = None ∧
  t_pc <$> threads cfg =
    [Returned (T:=Demo.types) ([], Some "policy directory not found");
     Returned (T:=Demo.types) ([], Some "policy directory not found")] ∧
  count isNewScanner (since Demo.world0 cfg) = 2 ∧
  allocated (sh_world (shared cfg)) = 2 ∧
  regoScanner (sh_scanner (shared cfg)) = None.
Proof. vm_compute. repeat split. Qed.

(** * More on the sequential methods *)
Section ScanLeaves.
Context `{C : Collaborators}.

(** Every way through [ScanFS], with the events it adds to the log. *)
Lemma ScanFS_leaves (P : list Event → Results → option Err → Scanner → Prop)
    ctx target dir s w :
  let parse := EvParseFS (parser s) ctx target dir in
  let build e :=
    [EvNewScanner e (options s); EvSetParentDebugLogger e (debug s)] in
  let load e res :=
    EvLoadPolicies e (loadEmbedded s) target (policyDirs s) (policyReaders s)
      res in
  let source := EvSetSourceAndFilesystem "" target false in
  (* the parser fails *)
  (∀ err, P [parse] [] (Some err) s) →
  (* the mapping is empty *)
  P [parse] [] None s →
  (* the policy load fails *)
  (∀ err, regoScanner s = None →
          P (parse :: build (allocated w) ++ [load (allocated w) (Some err)])
            [] (Some err) s) →
  (* the evaluation fails, on a new or on the cached engine *)
  (∀ n inputs err, regoScanner s = None →
     P (parse :: build (allocated w) ++
          [load (allocated w) None; EvLog (debug s) n;
           EvScanInput (Some (allocated w)) ctx inputs])
       [] (Some err) (set_regoScanner (allocated w) s)) →
  (∀ e n inputs err, regoScanner s = Some e →
     P [parse; EvLog (debug s) n; EvScanInput (Some e) ctx inputs]
       [] (Some err) s) →
  (* the scan succeeds, on a new or on the cached engine *)
  (∀ n inputs raw, regoScanner s = None →
     P (parse :: build (allocated w) ++
          [load (allocated w) None; EvLog (debug s) n;
           EvScanInput (Some (allocated w)) ctx inputs; source])
       (SetSourceAndFilesystem "" target false raw) None
       (set_regoScanner (allocated w) s)) →
  (∀ e n inputs raw, regoScanner s = Some e →
     P [parse; EvLog (debug s) n; EvScanInput (Some e) ctx inputs; source]
       (SetSourceAndFilesystem "" target false raw) None s) →
  ∃ tr,
    trace (ScanFS ctx target dir s w).2 = trace w ++ tr ∧
    P tr (ScanFS ctx target dir s w).1.1.1 (ScanFS ctx target dir s w).1.1.2
      (ScanFS ctx target dir s w).1.2.
Proof.
  intros parse build load source H1 H2 H3 H4 H5 H6 H7.
  unfold ScanFS, callParseFS.
  destruct (parser_ParseFS _ _ _ _ _) as [[m [err|]] x].
  { exists [parse]. split; [done|]. apply H1. }
  destruct (size m =? 0).
  { exists [parse]. split; [done|]. apply H2. }
  unfold initRegoScanner.
  destruct (regoScanner s) as [e|] eqn:Hcache.
  - unfold callScanInput, callLog.
    destruct (rego_ScanInput _ _ _ _) as [[raw [err|]] x4].
    + eexists. split; [|by eapply H5].
      cbn [snd fst log trace]. by rewrite <- !app_assoc.
    + eexists. split; [|by eapply H7].
      cbn [snd fst log trace callSetSourceAndFilesystem].
      by rewrite <- !app_assoc.
  - unfold callLoadPolicies, callSetParentDebugLogger, callNewScanner.
    cbn [fst snd log ext trace allocated].
    destruct (rego_LoadPolicies _ _ _ _ _ _) as [[err|] x3].
    + eexists. split; [|by eapply H3].
      cbn [snd fst log trace]. by rewrite <- !app_assoc.
    + unfold callScanInput, callLog. cbn [set_regoScanner debug].
      destruct (rego_ScanInput _ _ _ _) as [[raw [err|]] x4].
      * eexists. split; [|by eapply H4].
        cbn [snd fst log trace]. by rewrite <- !app_assoc.
      * eexists. split; [|by eapply H6].
        cbn [snd fst log trace callSetSourceAndFilesystem].
        by rewrite <- !app_assoc.
Qed.

(** Every way through [ScanReader]. *)
Lemma ScanReader_cases ctx filename reader s w :
  (∃ err, ScanReader ctx filename reader s w = ([], Some err, s, w)) ∨
  (∃ err x, ScanReader ctx filename reader s w =
              ([], Some err, s, log (EvReadAll reader) x w)) ∨
  (∃ m x, ScanReader ctx filename reader s w =
            ScanFS ctx (memfs_FS m) "." s (log (EvReadAll reader) x w)).
Proof.
  unfold ScanReader, callReadAll.
  destruct (memfs_MkdirAll _ _ _) as [m1 [err|]]; [left; eauto|].
  destruct (io_ReadAll _ _) as [[data [err|]] x]; [right; left; eauto|].
  destruct (memfs_WriteFile _ _ _ _) as [m2 [err|]]; [right; left; eauto|].
  right. right. eauto.
Qed.

Lemma options_applied_regoScanner (opts : list ScannerOption) s :
  regoScanner (foldl (fun acc opt => applyOption opt acc) s opts) =
    regoScanner s.
Proof.
  revert s. induction opts as [|opt opts IH]; intros s; [done|].
  cbn [foldl]. by rewrite IH, applyOption_regoScanner.
Qed.

Lemma options_applied_options (opts : list ScannerOption) s :
  options (foldl (fun acc opt => applyOption opt acc) s opts) = options s.
Proof.
  revert s. induction opts as [|opt opts IH]; intros s; [done|].
  cbn [foldl]. by rewrite IH, applyOption_options.
Qed.

(** The events a call adds to the log, and the options it keeps. *)
Lemma ScanFS_builtWith ctx target dir s w :
  ∃ tr,
    trace (ScanFS ctx target dir s w).2 = trace w ++ tr ∧
    Forall (builtWith (options s)) tr ∧
    options (ScanFS ctx target dir s w).1.2 = options s.
Proof.
  apply (ScanFS_leaves
    (fun tr _ _ s' => Forall (builtWith (options s)) tr ∧
                      options s' = options s));
    intros; (split; [by repeat constructor|done]).
Qed.

Lemma doCall_builtWith c s w :
  ∃ tr,
    trace (doCall (s, w) c).2 = trace w ++ tr ∧
    Forall (builtWith (options s)) tr ∧
    options (doCall (s, w) c).1 = options s.
Proof.
  destruct c as [c|srcFS|ctx target dir|ctx filename reader|f];
    cbn [doCall fst snd].
  - exists []. rewrite app_nil_r. split; [done|]. split; [constructor|].
    apply callSetter_options.
  - unfold initRegoScanner. destruct (regoScanner s).
    { exists []. by rewrite app_nil_r. }
    unfold callLoadPolicies, callSetParentDebugLogger, callNewScanner.
    cbn [fst snd log ext trace allocated].
    destruct (rego_LoadPolicies _ _ _ _ _ _) as [[err|] x];
      (eexists; split;
       [cbn [snd fst log trace]; by rewrite <- !app_assoc|];
       split; [by repeat constructor|done]).
  - destruct (ScanFS_builtWith ctx target dir s w) as (tr & Htr & Hall & Ho).
    destruct (ScanFS ctx target dir s w) as [[[r err] s'] w']. eauto.
  - destruct (ScanReader_cases ctx filename reader s w)
      as [[err ->]|[(err & x & ->)|(m & x & ->)]].
    + exists []. by rewrite app_nil_r.
    + exists [EvReadAll reader]. split; [done|].
      split; [by repeat constructor|done].
    + destruct (ScanFS_builtWith ctx (memfs_FS m) "." s
                  (log (EvReadAll reader) x w)) as (tr & Htr & Hall & Ho).
      destruct (ScanFS ctx (memfs_FS m) "." s _) as [[[r err] s'] w'].
      cbn [fst snd] in *. exists (EvReadAll reader :: tr).
      split; [|split; [|done]].
      * rewrite Htr. cbn [log trace]. by rewrite <- app_assoc.
      * by constructor.
  - exists []. by rewrite app_nil_r.
Qed.

Lemma doCalls_builtWith cs s w :
  ∃ tr,
    trace (doCalls cs (s, w)).2 = trace w ++ tr ∧
    Forall (builtWith (options s)) tr ∧
    options (doCalls cs (s, w)).1 = options s.
Proof.
  unfold doCalls. revert s w.
  induction cs as [|c cs IH]; intros s w; cbn [foldl].
  { exists []. by rewrite app_nil_r. }
  destruct (doCall_builtWith c s w) as (tr1 & Htr1 & Hall1 & Ho1).
  destruct (doCall (s, w) c) as [s1 w1]. cbn [fst snd] in *.
  destruct (IH s1 w1) as (tr2 & Htr2 & Hall2 & Ho2).
  exists (tr1 ++ tr2). split; [|split].
  - by rewrite Htr2, Htr1, app_assoc.
  - apply Forall_app. split; [done|]. by rewrite <- Ho1.
  - congruence.
Qed.

End ScanLeaves.

(** X6.  One call of [ScanFS] parses exactly once; it builds at most one
    engine, and none when the cache is filled; each engine it builds is given
    the logger once and has its policies loaded once; it evaluates at most
    once, and not at all after a failed load; it writes provenance at most
    once, only after an evaluation, and never when it returns an error. *)
Theorem ScanFS_call_counts `{C : Collaborators}
    (ctx : Ctx) (target : FS) (dir : string) (s : Scanner) (w : World) :
  ∃ tr,
    trace (ScanFS ctx target dir s w).2 = trace w ++ tr ∧
    count isParseFS tr = 1 ∧
    count isNewScanner tr ≤ 1 ∧
    count isSetParentDebugLogger tr = count isNewScanner tr ∧
    count isLoadPolicies tr = count isNewScanner tr ∧
    (is_Some (regoScanner s) → count isNewScanner tr = 0) ∧
    count isScanInput tr ≤ 1 ∧
    count isLoadFailed tr + count isScanInput tr ≤ 1 ∧
    count isSetSourceAndFilesystem tr ≤ count isScanInput tr ∧
    (is_Some (ScanFS ctx target dir s w).1.1.2 →
     count isSetSourceAndFilesystem tr = 0).
Proof.
  apply (ScanFS_leaves
    (fun tr _ err _ =>
       count isParseFS tr = 1 ∧
       count isNewScanner tr ≤ 1 ∧
       count isSetParentDebugLogger tr = count isNewScanner tr ∧
       count isLoadPolicies tr = count isNewScanner tr ∧
       (is_Some (regoScanner s) → count isNewScanner tr = 0) ∧
       count isScanInput tr ≤ 1 ∧
       count isLoadFailed tr + count isScanInput tr ≤ 1 ∧
       count isSetSourceAndFilesystem tr ≤ count isScanInput tr ∧
       (is_Some err → count isSetSourceAndFilesystem tr = 0)));
    intros; cbn; repeat split; try lia;
    try (intros [? Heq]; congruence).
Qed.

(** X1.  [NewScanner] builds no engine and keeps the option list it was
    given.  No method changes that list, so whatever is called on the scanner
    afterwards (setters, scans, initialisations, with anything else running
    in between), every engine that is ever built is built with exactly the
    options of [NewScanner]. *)
Theorem engines_get_the_construction_options `{C : Collaborators}
    (opts : list ScannerOption) :
  regoScanner (NewScanner opts) = None ∧
  options (NewScanner opts) = opts ∧
  ∀ (later : list Call) (w : World),
    ∃ tr,
      trace (doCalls later (NewScanner opts, w)).2 = trace w ++ tr ∧
      Forall (builtWith opts) tr ∧
      options (doCalls later (NewScanner opts, w)).1 = opts.
Proof.
  assert (options (NewScanner opts) = opts) as Hopts.
  { unfold NewScanner. cbn [set_parser options].
    by rewrite options_applied_options. }
  split; [|split; [done|]].
  - unfold NewScanner. cbn [set_parser regoScanner].
    by rewrite options_applied_regoScanner.
  - intros later w.
    destruct (doCalls_builtWith later (NewScanner opts) w)
      as (tr & Htr & Hall & Ho).
    rewrite Hopts in Hall, Ho. eauto.
Qed.

(** X2.  [NewScanner] runs its options in order on a zero scanner: the
    policy directories, the policy readers, the embedded-policy flag and the
    skip flag of the new scanner are the last ones a setter call of the
    options assigned, or the zero value when none did, and the parser is
    built with that skip flag. *)
Theorem NewScanner_last_option_wins `{T : Types} (opts : list ScannerOption) :
  let calls := concat opts in
  policyDirs (NewScanner opts) = lastSetting pickPolicyDirs [] calls ∧
  policyReaders (NewScanner opts) = lastSetting pickPolicyReaders [] calls ∧
  loadEmbedded (NewScanner opts) = lastSetting pickLoadEmbedded false calls ∧
  skipRequired (NewScanner opts) = lastSetting pickSkipRequired false calls ∧
  parser (NewScanner opts) =
    Some (ParserNew
            [ParserWithSkipRequiredCheck
               (lastSetting pickSkipRequired false calls)]).
Proof.
  intros calls. unfold NewScanner.
  cbn [set_parser policyDirs policyReaders loadEmbedded skipRequired parser].
  rewrite options_applied_concat. fold calls.
  rewrite (setters_last policyDirs pickPolicyDirs) by (by intros []).
  rewrite (setters_last policyReaders pickPolicyReaders) by (by intros []).
  rewrite (setters_last loadEmbedded pickLoadEmbedded) by (by intros []).
  rewrite (setters_last skipRequired pickSkipRequired) by (by intros []).
  done.
Qed.

(** X3.  A setter that assigns no field of the scanner leaves it as it is;
    of two setter calls that assign the same field the later one wins; two
    setter calls that assign different fields commute. *)
Theorem setters_compose `{T : Types} (c1 c2 : Setter) (s : Scanner) :
  (written c1 = None → callSetter c1 s = s) ∧
  (written c1 = written c2 → written c2 ≠ None →
   callSetter c2 (callSetter c1 s) = callSetter c2 s) ∧
  (written c1 ≠ written c2 →
   callSetter c1 (callSetter c2 s) = callSetter c2 (callSetter c1 s)).
Proof.
  split; [|split].
  - by destruct c1.
  - by destruct c1, c2.
  - by destruct c1, c2.
Qed.

(** X4.  [initRegoScanner], [ScanFS] and [ScanReader] change nothing of the
    scanner but the engine cache, and the cache only from empty to filled. *)
Theorem scans_touch_only_the_cache `{C : Collaborators}
    (ctx : Ctx) (target : FS) (dir filename : string) (reader : Reader)
    (s : Scanner) (w : World) :
  let touched s' :=
    s' = s ∨ (regoScanner s = None ∧ ∃ e, s' = set_regoScanner e s) in
  touched (initRegoScanner target s w).1.2 ∧
  touched (ScanFS ctx target dir s w).1.2 ∧
  touched (ScanReader ctx filename reader s w).1.2.
Proof.
  intros touched.
  assert (∀ ctx target dir w, touched (ScanFS ctx target dir s w).1.2) as HFS.
  { intros ctx' target' dir' w'.
    destruct (ScanFS_leaves (fun _ _ _ s' => touched s') ctx' target' dir' s w')
      as (_ & _ & H); unfold touched; eauto. }
  split; [|split; [apply HFS|]].
  - unfold initRegoScanner. destruct (regoScanner s) eqn:Hs; [by left|].
    destruct (callNewScanner (options s) w) as [e w1].
    destruct (callLoadPolicies _ _ _ _ _ _) as [[err|] w3];
      [by left|right; eauto].
  - destruct (ScanReader_cases ctx filename reader s w)
      as [[err ->]|[(err & x & ->)|(m & x & ->)]];
      [by left|by left|apply HFS].
Qed.

(** X5.  Whenever [ScanFS] or [ScanReader] returns an error, the results it
    returns are nil. *)
Theorem scan_error_means_no_results `{C : Collaborators}
    (ctx : Ctx) (target : FS) (dir filename : string) (reader : Reader)
    (s : Scanner) (w : World) :
  (is_Some (ScanFS ctx target dir s w).1.1.2 →
   (ScanFS ctx target dir s w).1.1.1 = []) ∧
  (is_Some (ScanReader ctx filename reader s w).1.1.2 →
   (ScanReader ctx filename reader s w).1.1.1 = []).
Proof.
  assert (∀ ctx target dir w,
            is_Some (ScanFS ctx target dir s w).1.1.2 →
            (ScanFS ctx target dir s w).1.1.1 = []) as HFS.
  { intros ctx' target' dir' w'.
    destruct (ScanFS_leaves (fun _ r err _ => is_Some err → r = [])
                ctx' target' dir' s w') as (_ & _ & H);
      first [done | intros; by intros [? [=]]]. }
  split; [apply HFS|].
  destruct (ScanReader_cases ctx filename reader s w)
    as [[err ->]|[(err & x & ->)|(m & x & ->)]]; [done|done|apply HFS].
Qed.

(** X7.  Every collaborator call of a [ScanFS] is made with what the scan
    was given and what the scanner holds: the parser is the scanner's and
    gets the context, target and directory; an engine is built with the
    scanner's options and logger and loads the scanner's policy sources with
    the target as source filesystem; the evaluation gets the context;
    provenance is the empty label, the target and [false].  A [ScanReader]
    reads its reader and otherwise makes the calls of a scan, under its
    context, of a memory filesystem from ["."]. *)
Theorem scans_pass_on_their_arguments `{C : Collaborators}
    (ctx : Ctx) (target : FS) (dir filename : string) (reader : Reader)
    (s : Scanner) (w : World) :
  (∃ tr,
     trace (ScanFS ctx target dir s w).2 = trace w ++ tr ∧
     Forall (madeBy s ctx target dir) tr) ∧
  (∃ tr,
     trace (ScanReader ctx filename reader s w).2 = trace w ++ tr ∧
     Forall (fun ev => ev = EvReadAll reader ∨
                       ∃ m, madeBy s ctx (memfs_FS m) "." ev) tr).
Proof.
  assert (∀ ctx target dir w,
            ∃ tr, trace (ScanFS ctx target dir s w).2 = trace w ++ tr ∧
                  Forall (madeBy s ctx target dir) tr) as HFS.
  { intros ctx' target' dir' w'.
    apply (ScanFS_leaves (fun tr _ _ _ => Forall (madeBy s ctx' target' dir') tr));
      intros; by repeat constructor. }
  split; [apply HFS|].
  destruct (ScanReader_cases ctx filename reader s w)
    as [[err ->]|[(err & x & ->)|(m & x & ->)]].
  - exists []. by rewrite app_nil_r.
  - exists [EvReadAll reader]. split; [done|].
    constructor; [by left|constructor].
  - destruct (HFS ctx (memfs_FS m) "." (log (EvReadAll reader) x w))
      as (tr & Htr & Hall).
    exists (EvReadAll reader :: tr). split.
    + rewrite Htr. cbn [log trace]. by rewrite <- app_assoc.
    + constructor; [by left|].
      eapply Forall_impl; [exact Hall|]. intros ev Hev. right. eauto.
Qed.

(** X8.  On a non-empty mapping and an empty cache, when the policy load
    fails [ScanFS] returns the nil results and that error and leaves the
    scanner as it was; it has neither evaluated nor written provenance. *)
Theorem ScanFS_policy_load_error `{C : Collaborators}
    (ctx : Ctx) (target : FS) (dir : string) (s : Scanner) (w : World)
    (m : gmap string (list Doc)) (x x3 : Ext) (err : Err) :
  parser_ParseFS (parser s) ctx target dir (ext w) = (m, None, x) →
  size m ≠ 0 →
  regoScanner s = None →
  let w1 := log (EvParseFS (parser s) ctx target dir) x w in
  rego_LoadPolicies (allocated w1) (loadEmbedded s) target (policyDirs s)
    (policyReaders s) (ext (constructed s w1)) = (Some err, x3) →
  let w3 :=
    log (EvLoadPolicies (allocated w1) (loadEmbedded s) target (policyDirs s)
           (policyReaders s) (Some err)) x3 (constructed s w1) in
  ScanFS ctx target dir s w = ([], Some err, s, w3) ∧
  count isScanInput (trace w3) = count isScanInput (trace w) ∧
  count isSetSourceAndFilesystem (trace w3) =
    count isSetSourceAndFilesystem (trace w).
Proof.
  intros Hparse Hsize Hnone w1 Hload w3. split.
  - rewrite (ScanFS_nonempty _ _ _ _ _ _ _ Hparse Hsize). cbv zeta.
    fold w1. rewrite (initRegoScanner_empty _ _ _ Hnone). cbv zeta.
    by rewrite Hload.
  - unfold w3, constructed, callSetParentDebugLogger, callNewScanner, w1.
    cbn [snd]. rewrite !count_log. cbn [trace]. rewrite !count_snoc.
    rewrite !count_log. cbn. lia.
Qed.

Lemma ScanFS_policy_load_error_witness :
  regoScanner Demo.withMissingPolicies = None ∧
  (ScanFS (C:=Demo.collaborators) tt Demo.oneManifest "."
     Demo.withMissingPolicies Demo.world0).1.1 =
    ([], Some "policy directory not found").
Proof.
  split; [reflexivity|].
  exact (f_equal (fun out => out.1.1)
    (proj1 (ScanFS_policy_load_error (C:=Demo.collaborators) tt
              Demo.oneManifest "." Demo.withMissingPolicies Demo.world0
              (list_to_map Demo.oneManifest) 0 1
              "policy directory not found" eq_refl
              ltac:(vm_compute; lia) eq_refl eq_refl))).
Defined.

(** X9.  When the evaluation fails, [ScanFS] returns the nil results and
    that error without writing provenance, and the engine stays cached: any
    later scan leaves the scanner as it is, builds no engine and loads no
    policy. *)
Theorem ScanFS_evaluation_error_keeps_engine `{C : Collaborators}
    (ctx : Ctx) (target : FS) (dir : string) (s : Scanner) (w : World)
    (m : gmap string (list Doc)) (x x4 : Ext) (r : option EnginePtr)
    (s1 : Scanner) (w2 : World) (raw : Results) (err : Err) :
  parser_ParseFS (parser s) ctx target dir (ext w) = (m, None, x) →
  size m ≠ 0 →
  let w1 := log (EvParseFS (parser s) ctx target dir) x w in
  let inputs := buildInputs target (range_order x m) in
  initRegoScanner target s w1 = (r, None, s1, w2) →
  let w3 := callLog (debug s1) (length inputs) w2 in
  rego_ScanInput r ctx inputs (ext w3) = (raw, Some err, x4) →
  let w4 := log (EvScanInput r ctx inputs) x4 w3 in
  ScanFS ctx target dir s w = ([], Some err, s1, w4) ∧
  regoScanner s1 = r ∧ is_Some r ∧
  count isSetSourceAndFilesystem (trace w4) =
    count isSetSourceAndFilesystem (trace w) ∧
  ∀ ctx' target' dir' w',
    (ScanFS ctx' target' dir' s1 w').1.2 = s1 ∧
    count isNewScanner (trace (ScanFS ctx' target' dir' s1 w').2) =
      count isNewScanner (trace w') ∧
    count isLoadPolicies (trace (ScanFS ctx' target' dir' s1 w').2) =
      count isLoadPolicies (trace w').
Proof.
  intros Hparse Hsize w1 inputs Hinit w3 Hscan w4.
  destruct (initRegoScanner_result _ _ _ _ _ _ _ Hinit) as (e & -> & He).
  split; [|split; [done|split; [by eexists|split]]].
  - rewrite (ScanFS_nonempty _ _ _ _ _ _ _ Hparse Hsize). cbv zeta.
    fold w1 inputs. rewrite Hinit. unfold callScanInput. fold w3.
    by rewrite Hscan.
  - pose proof (initRegoScanner_count isSetSourceAndFilesystem target s w1)
      as Hcount.
    rewrite Hinit in Hcount. cbn [snd] in Hcount.
    unfold w4, w3, callLog. rewrite !count_log, Hcount by done.
    unfold w1. rewrite count_log. cbn. lia.
  - intros ctx' target' dir' w'. by apply (ScanFS_cached _ _ _ _ _ e).
Qed.

Lemma ScanFS_evaluation_error_keeps_engine_witness :
  let out :=
    ScanFS (C:=DemoStrict.collaborators) tt DemoStrict.poisoned "."
      Demo.plain Demo.world0 in
  out.1.1 = ([], Some "cannot evaluate") ∧
  regoScanner out.1.2 = Some 0.
Proof.
  intros out.
  destruct (ScanFS_evaluation_error_keeps_engine
              (C:=DemoStrict.collaborators) tt DemoStrict.poisoned "."
              Demo.plain Demo.world0 (list_to_map DemoStrict.poisoned) 0 1
              (Some 0) out.1.2 _ [] "cannot evaluate" eq_refl
              ltac:(vm_compute; lia) eq_refl eq_refl)
    as (Heq & Hcache & _).
  split; [exact (f_equal (fun o => o.1.1) Heq)|exact Hcache].
Defined.

(** X10.  Once the cache holds an engine, [SetDebugWriter] only replaces
    the logger of the scanner: a scan after it leaves the scanner as it is,
    builds no engine and never hands a logger to the engine, while its own
    log line goes to the new logger. *)
Theorem SetDebugWriter_after_caching `{C : Collaborators}
    (writer : Writer) (ctx : Ctx) (target : FS) (dir : string)
    (s : Scanner) (w : World) (e : EnginePtr) :
  regoScanner s = Some e →
  let s' := SetDebugWriter writer s in
  debug s' = LoggerNew writer ["kubernetes"; "scanner"] ∧
  (ScanFS ctx target dir s' w).1.2 = s' ∧
  ∃ tr,
    trace (ScanFS ctx target dir s' w).2 = trace w ++ tr ∧
    count isSetParentDebugLogger tr = 0 ∧
    count isNewScanner tr = 0 ∧
    Forall (madeBy s' ctx target dir) tr.
Proof.
  intros Hcache s'.
  assert (regoScanner s' = Some e) as Hcache' by done.
  split; [done|].
  split; [by destruct (ScanFS_cached ctx target dir s' w e Hcache')|].
  apply (ScanFS_leaves
    (fun tr _ _ _ =>
       count isSetParentDebugLogger tr = 0 ∧ count isNewScanner tr = 0 ∧
       Forall (madeBy s' ctx target dir) tr));
    intros; try congruence; (split; [done|split; [done|]]);
    by repeat constructor.
Qed.

Lemma SetDebugWriter_after_caching_witness :
  let first :=
    ScanFS (C:=Demo.collaborators) tt Demo.oneManifest "." Demo.plain
      Demo.world0 in
  regoScanner first.1.2 = Some 0 ∧
  (ScanFS (C:=Demo.collaborators) tt Demo.twoManifests "."
     (SetDebugWriter (T:=Demo.types) tt first.1.2) first.2).1.2 =
    SetDebugWriter (T:=Demo.types) tt first.1.2.
Proof.
  intros first. split; [reflexivity|].
  exact (proj1 (proj2 (SetDebugWriter_after_caching (C:=Demo.collaborators)
                         tt tt Demo.twoManifests "." first.1.2 first.2 0
                         eq_refl))).
Defined.

(** * Mutual exclusion and progress of concurrent scans *)
Section Progress.
Context `{C : Collaborators}.
Implicit Types (s : Scanner) (ts : list Thread) (t : Thread) (cfg : Config)
  (sh : Shared).

(** A move takes or releases the mutex, or leaves it, and brings the
    goroutine closer to its return. *)
Lemma stepThread_kind t sh t' sh' :
  stepThread t sh = Some (t', sh') →
  remaining (t_pc t') < remaining (t_pc t) ∧
  ((critical (t_pc t') = critical (t_pc t) ∧ sh_locked sh' = sh_locked sh) ∨
   (critical (t_pc t) = false ∧ critical (t_pc t') = true ∧
    sh_locked sh = false ∧ sh_locked sh' = true) ∨
   (critical (t_pc t) = true ∧ critical (t_pc t') = false ∧
    sh_locked sh' = false)).
Proof.
  unfold stepThread. intros Hstep.
  destruct (t_pc t) as [|m|inputs|inputs|inputs|inputs e|inputs e|inputs e
                        |inputs [r oerr]|inputs r|inputs r|results|ret];
    repeat case_match; simplify_eq; cbn; split; try lia; eauto.
Qed.

(** Only a goroutine that has returned, or one that waits for the held
    mutex, cannot move. *)
Lemma stepThread_blocked t sh :
  stepThread t sh = None →
  hasReturned t = true ∨
  (critical (t_pc t) = false ∧ sh_locked sh = true).
Proof.
  unfold stepThread, hasReturned. intros Hstep.
  destruct (t_pc t) as [|m|inputs|inputs|inputs|inputs e|inputs e|inputs e
                        |inputs [r oerr]|inputs r|inputs r|results|ret];
    repeat case_match; simplify_eq; eauto.
Qed.

Lemma excl_start s w calls :
  Excl (sh_locked (shared (start s w calls))) (threads (start s w calls)).
Proof.
  assert (∀ i t, (spawn <$> calls) !! i = Some t → t_pc t = AtParse) as Hpc.
  { intros i t Hi. rewrite list_lookup_fmap in Hi.
    by apply fmap_Some in Hi as (call & _ & ->). }
  cbn [start shared threads sh_locked]. split.
  - intros i j ti tj Hi _ Hci _. by rewrite (Hpc _ _ Hi) in Hci.
  - done.
  - intros i t Hi Hci. by rewrite (Hpc _ _ Hi) in Hci.
Qed.

Lemma excl_runStep cfg i :
  Excl (sh_locked (shared cfg)) (threads cfg) →
  Excl (sh_locked (shared (runStep cfg i))) (threads (runStep cfg i)).
Proof.
  intros HE. unfold runStep.
  destruct (threads cfg !! i) as [t|] eqn:Hi; [|done].
  destruct (stepThread t (shared cfg)) as [[t' sh']|] eqn:Hstep; [|done].
  cbn [shared threads].
  destruct HE as [Hone Hheld Hlocked].
  destruct (stepThread_kind _ _ _ _ Hstep) as [_ Hkind].
  assert (∀ j tj, <[i:=t']> (threads cfg) !! j = Some tj →
                  (j = i ∧ tj = t') ∨ (j ≠ i ∧ threads cfg !! j = Some tj))
    as Hcases by (intros j tj; by apply lookup_insert_cases with t).
  assert (<[i:=t']> (threads cfg) !! i = Some t') as Hi'
    by (apply list_lookup_insert_eq; eauto using lookup_lt_Some).
  destruct Hkind as [[Hc Hb]|[(Hc & Hc' & Hb & Hb')|(Hc & Hc' & Hb')]].
  - (* the mutex is not touched *)
    rewrite Hb. split.
    + intros j k tj tk Hj Hk Hcj Hck.
      destruct (Hcases _ _ Hj) as [[-> ->]|[Hnj Hj']];
        destruct (Hcases _ _ Hk) as [[-> ->]|[Hnk Hk']]; try done.
      * rewrite Hc in Hcj. symmetry. eauto.
      * rewrite Hc in Hck. eauto.
      * eauto.
    + intros Hl. destruct (Hheld Hl) as (j & tj & Hj & Hcj).
      destruct (decide (j = i)) as [->|Hne].
      * exists i, t'. split; [done|]. rewrite Hc. congruence.
      * exists j, tj. split; [|done]. by rewrite list_lookup_insert_ne.
    + intros j tj Hj Hcj.
      destruct (Hcases _ _ Hj) as [[-> ->]|[Hnj Hj']]; [|eauto].
      rewrite Hc in Hcj. eauto.
  - (* the mutex is taken *)
    rewrite Hb'. split.
    + intros j k tj tk Hj Hk Hcj Hck.
      destruct (Hcases _ _ Hj) as [[-> ->]|[Hnj Hj']];
        destruct (Hcases _ _ Hk) as [[-> ->]|[Hnk Hk']]; try done.
      * specialize (Hlocked _ _ Hk' Hck). congruence.
      * specialize (Hlocked _ _ Hj' Hcj). congruence.
      * specialize (Hlocked _ _ Hj' Hcj). congruence.
    + intros _. eauto.
    + done.
  - (* the mutex is released *)
    rewrite Hb'.
    assert (∀ j tj, <[i:=t']> (threads cfg) !! j = Some tj →
                    critical (t_pc tj) = true → False) as Hnone.
    { intros j tj Hj Hcj.
      destruct (Hcases _ _ Hj) as [[-> ->]|[Hnj Hj']]; [congruence|].
      by specialize (Hone _ _ _ _ Hj' Hi Hcj Hc). }
    split.
    + intros j k tj tk Hj _ Hcj _. by destruct (Hnone _ _ Hj Hcj).
    + done.
    + intros j tj Hj Hcj. by destruct (Hnone _ _ Hj Hcj).
Qed.

Lemma excl_run schedule cfg :
  Excl (sh_locked (shared cfg)) (threads cfg) →
  Excl (sh_locked (shared (run schedule cfg))) (threads (run schedule cfg)).
Proof.
  unfold run. revert cfg.
  induction schedule as [|i schedule IH]; intros cfg HE; [done|].
  cbn [foldl]. by apply IH, excl_runStep.
Qed.

(** When a goroutine has not returned, some goroutine can move. *)
Lemma excl_enabled cfg i t :
  Excl (sh_locked (shared cfg)) (threads cfg) →
  threads cfg !! i = Some t → hasReturned t = false →
  ∃ j, enabled cfg j.
Proof.
  intros [Hone Hheld Hlocked] Hi Hret.
  destruct (stepThread t (shared cfg)) as [next|] eqn:Hstep.
  { exists i, t. eauto. }
  destruct (stepThread_blocked _ _ Hstep) as [?|[_ Hl]]; [congruence|].
  destruct (Hheld Hl) as (j & tj & Hj & Hcj).
  exists j, tj. split; [done|].
  destruct (stepThread tj (shared cfg)) as [next|] eqn:Hstepj; [eauto|].
  destruct (stepThread_blocked _ _ Hstepj) as [Hr|[? _]]; [|congruence].
  unfold hasReturned in Hr. by destruct (t_pc tj).
Qed.

Lemma totalRemaining_insert ts i t t' :
  ts !! i = Some t →
  totalRemaining (<[i:=t']> ts) + remaining (t_pc t) =
    totalRemaining ts + remaining (t_pc t').
Proof.
  unfold totalRemaining. revert i.
  induction ts as [|t0 ts IH]; intros [|i] Hi; try done.
  - injection Hi as ->. cbn. lia.
  - change (<[S i:=t']> (t0 :: ts)) with (t0 :: <[i:=t']> ts).
    cbn [sum_list_with]. specialize (IH i Hi). lia.
Qed.

Lemma totalRemaining_zero ts :
  totalRemaining ts = 0 → Forall (fun t => hasReturned t = true) ts.
Proof.
  unfold totalRemaining, hasReturned.
  induction ts as [|t ts IH]; intros Hsum; [constructor|].
  cbn in Hsum. constructor; [|apply IH; lia].
  destruct (t_pc t); cbn in Hsum; done || lia.
Qed.

Lemma totalRemaining_returned ts :
  Forall (fun t => hasReturned t = true) ts → totalRemaining ts = 0.
Proof.
  unfold totalRemaining, hasReturned.
  induction 1 as [|t ts Ht _ IH]; [done|].
  cbn. rewrite IH. by destruct (t_pc t).
Qed.

Lemma totalRemaining_start s w calls :
  totalRemaining (threads (start s w calls)) = 12 * length calls.
Proof.
  unfold totalRemaining. cbn [start threads].
  induction calls as [|call calls IH]; [done|].
  cbn [fmap list_fmap sum_list_with length] in *. rewrite IH. cbn. lia.
Qed.

(** A pick of the runtime either changes nothing, the goroutine being unable
    to move, or brings the goroutines closer to their return. *)
Lemma runStep_cases cfg i :
  (runStep cfg i = cfg ∧ ¬ enabled cfg i) ∨
  totalRemaining (threads (runStep cfg i)) < totalRemaining (threads cfg).
Proof.
  unfold runStep, enabled.
  destruct (threads cfg !! i) as [t|] eqn:Hi.
  - destruct (stepThread t (shared cfg)) as [[t' sh']|] eqn:Hstep.
    + right. cbn [threads].
      destruct (stepThread_kind _ _ _ _ Hstep) as [Hlt _].
      pose proof (totalRemaining_insert _ _ _ t' Hi). lia.
    + left. split; [done|]. intros (t0 & [= <-] & Hsome).
      rewrite Hstep in Hsome. by destruct Hsome.
  - left. split; [done|]. by intros (t0 & [=] & _).
Qed.

Lemma runStep_length cfg i :
  length (threads (runStep cfg i)) = length (threads cfg).
Proof.
  unfold runStep. destruct (threads cfg !! i) as [t|]; [|done].
  destruct (stepThread t (shared cfg)) as [[t' sh']|]; [|done].
  apply length_insert.
Qed.

Lemma run_length schedule cfg :
  length (threads (run schedule cfg)) = length (threads cfg).
Proof.
  unfold run. revert cfg.
  induction schedule as [|i schedule IH]; intros cfg; [done|].
  cbn [foldl]. by rewrite IH, runStep_length.
Qed.

Lemma run_total schedule cfg :
  totalRemaining (threads (run schedule cfg)) ≤ totalRemaining (threads cfg).
Proof.
  unfold run. revert cfg.
  induction schedule as [|i schedule IH]; intros cfg; [done|].
  cbn [foldl]. specialize (IH (runStep cfg i)).
  destruct (runStep_cases cfg i) as [[Heq _]|Hlt]; [|lia].
  rewrite Heq in IH |- *. exact IH.
Qed.

Lemma run_progress schedule cfg :
  totalRemaining (threads (run schedule cfg)) < totalRemaining (threads cfg) ∨
  (∀ i, i ∈ schedule → ¬ enabled cfg i).
Proof.
  revert cfg. induction schedule as [|i schedule IH]; intros cfg.
  { right. intros i Hi. by apply elem_of_nil in Hi. }
  change (run (i :: schedule) cfg) with (run schedule (runStep cfg i)).
  destruct (runStep_cases cfg i) as [[Heq Hdis]|Hlt].
  - rewrite Heq. destruct (IH cfg) as [?|Hnone]; [by left|].
    right. intros j Hj. apply elem_of_cons in Hj as [->|Hj]; eauto.
  - left. pose proof (run_total schedule (runStep cfg i)). lia.
Qed.

(** A round of the round robin brings the goroutines closer to their return
    unless all have returned. *)
Lemma round_progress cfg :
  Excl (sh_locked (shared cfg)) (threads cfg) →
  totalRemaining (threads cfg) ≠ 0 →
  totalRemaining (threads (run (seq 0 (length (threads cfg))) cfg)) <
    totalRemaining (threads cfg).
Proof.
  intros HE Hpos.
  destruct (run_progress (seq 0 (length (threads cfg))) cfg) as [?|Hnone];
    [done|].
  assert (¬ Forall (fun t => hasReturned t = true) (threads cfg)) as Hnot
    by (intros Hall; by apply Hpos, totalRemaining_returned).
  apply not_Forall_Exists in Hnot; [|solve_decision].
  apply Exists_exists in Hnot as (t & Ht & Hret).
  apply list_elem_of_lookup in Ht as [i Hi].
  destruct (excl_enabled cfg i t HE Hi) as [j Hj].
  { apply not_true_is_false. exact Hret. }
  destruct (Hnone j); [|done].
  destruct Hj as (tj & Hj & _). apply elem_of_seq.
  apply lookup_lt_Some in Hj. lia.
Qed.

Lemma rounds_progress rounds cfg :
  Excl (sh_locked (shared cfg)) (threads cfg) →
  totalRemaining
    (threads (run (roundRobin (length (threads cfg)) rounds) cfg)) ≤
    totalRemaining (threads cfg) - rounds.
Proof.
  unfold roundRobin. revert cfg.
  induction rounds as [|rounds IH]; intros cfg HE; [cbn; lia|].
  cbn [replicate concat]. unfold run at 1. rewrite foldl_app.
  fold (run (seq 0 (length (threads cfg))) cfg).
  set (cfg1 := run (seq 0 (length (threads cfg))) cfg).
  assert (length (threads cfg1) = length (threads cfg)) as Hlen
    by apply run_length.
  pose proof (excl_run (seq 0 (length (threads cfg))) cfg HE) as HE1.
  fold cfg1 in HE1. specialize (IH cfg1 HE1). rewrite Hlen in IH.
  unfold run in IH. 
  destruct (decide (totalRemaining (threads cfg) = 0)) as [Hz|Hnz].
  - pose proof (run_total (seq 0 (length (threads cfg))) cfg).
    fold cfg1 in H. lia.
  - pose proof (round_progress cfg HE Hnz). fold cfg1 in H. lia.
Qed.

End Progress.

(** X11.  Under every interleaving of any number of [ScanFS] calls on one
    scanner, at most one goroutine is between [s.Lock()] and the deferred
    [s.Unlock()], and the mutex is held exactly when one is. *)
Theorem concurrent_scans_exclude_each_other `{C : Collaborators}
    (s : Scanner) (w : World) (calls : list (Ctx * FS * string))
    (schedule : list nat) :
  let cfg := run schedule (start s w calls) in
  (∀ i j ti tj,
     threads cfg !! i = Some ti → threads cfg !! j = Some tj →
     critical (t_pc ti) = true → critical (t_pc tj) = true → i = j) ∧
  (sh_locked (shared cfg) = true ↔
   ∃ i t, threads cfg !! i = Some t ∧ critical (t_pc t) = true).
Proof.
  intros cfg.
  destruct (excl_run schedule _ (excl_start s w calls))
    as [Hone Hheld Hlocked].
  split; [exact Hone|]. split; [exact Hheld|].
  intros (i & t & Hi & Hc). eauto.
Qed.

(** X12.  Concurrent scans never deadlock: at every point of every
    interleaving, either all calls have returned or some goroutine can make
    its next move. *)
Theorem concurrent_scans_never_deadlock `{C : Collaborators}
    (s : Scanner) (w : World) (calls : list (Ctx * FS * string))
    (schedule : list nat) :
  let cfg := run schedule (start s w calls) in
  Forall (fun t => hasReturned t = true) (threads cfg) ∨
  ∃ i, enabled cfg i.
Proof.
  intros cfg.
  pose proof (excl_run schedule _ (excl_start s w calls)) as HE.
  fold cfg in HE.
  destruct (decide (Forall (fun t => hasReturned t = true) (threads cfg)))
    as [?|Hnot]; [by left|right].
  apply not_Forall_Exists in Hnot; [|solve_decision].
  apply Exists_exists in Hnot as (t & Ht & Hret).
  apply list_elem_of_lookup in Ht as [i Hi].
  apply (excl_enabled cfg i t HE Hi).
  apply not_true_is_false. exact Hret.
Qed.

(** X13.  Concurrent scans all return: when the runtime lets the [n]
    goroutines move in turn, after [12 * n] rounds every call has returned
    and the mutex is free. *)
Theorem concurrent_scans_all_return `{C : Collaborators}
    (s : Scanner) (w : World) (calls : list (Ctx * FS * string)) :
  let n := length calls in
  let cfg := run (roundRobin n (12 * n)) (start s w calls) in
  length (threads cfg) = n ∧
  Forall (fun t => hasReturned t = true) (threads cfg) ∧
  sh_locked (shared cfg) = false.
Proof.
  intros n cfg.
  assert (length (threads (start s w calls)) = n) as Hn
    by (cbn [start threads]; apply length_fmap).
  pose proof (rounds_progress (12 * n) _ (excl_start s w calls)) as Hle.
  rewrite Hn, totalRemaining_start in Hle. fold n cfg in Hle.
  assert (Forall (fun t => hasReturned t = true) (threads cfg)) as Hall
    by (apply totalRemaining_zero; lia).
  split; [unfold cfg; by rewrite run_length|]. split; [done|].
  destruct (excl_run (roundRobin n (12 * n)) _ (excl_start s w calls))
    as [_ Hheld _]. fold cfg in Hheld.
  destruct (sh_locked (shared cfg)); [|done].
  destruct (Hheld eq_refl) as (i & t & Hi & Hc).
  apply list_elem_of_lookup_2 in Hi.
  rewrite Forall_forall in Hall. specialize (Hall t Hi).
  unfold hasReturned in Hall. by destruct (t_pc t).
Qed.

(** * What concurrent scans return, and the order of the inputs *)
Section Returns.
Context `{C : Collaborators}.

Lemma stepThread_returnedWell t sh t' sh' :
  stepThread t sh = Some (t', sh') → returnedWell t'.
Proof.
  unfold stepThread, returnedWell, callSetSourceAndFilesystem.
  intros Hstep.
  destruct (t_pc t); repeat case_match; simplify_eq; cbn in *; try done;
    simplify_eq; try (split; [by intros [? [=]] || done|]);
    try done; try by constructor.
  all: try (apply Forall_fmap, Forall_forall; done).
Qed.

Lemma runStep_returnedWell cfg i :
  Forall returnedWell (threads cfg) →
  Forall returnedWell (threads (runStep cfg i)).
Proof.
  intros Hall. unfold runStep.
  destruct (threads cfg !! i) as [t|] eqn:Hi; [|done].
  destruct (stepThread t (shared cfg)) as [[t' sh']|] eqn:Hstep; [|done].
  cbn [threads]. apply Forall_insert; [done|].
  by apply (stepThread_returnedWell _ _ _ _ Hstep).
Qed.

Lemma buildInputs_Permutation target (l1 l2 : list (string * list Doc)) :
  l1 ≡ₚ l2 → buildInputs target l1 ≡ₚ buildInputs target l2.
Proof.
  induction 1 as [|e l1 l2 _ IH|e1 e2 l|l1 l2 l3 _ IH1 _ IH2].
  - done.
  - rewrite !buildInputs_cons. by rewrite IH.
  - rewrite !buildInputs_cons, !app_assoc.
    f_equiv. apply Permutation_app_comm.
  - by rewrite IH1.
Qed.

End Returns.

(** X14.  Under every interleaving, a call that has returned has returned
    nil results if it returned an error, and results that all carry the empty
    source label, the target of that very call and the flag [false]. *)
Theorem concurrent_scans_return_well `{C : Collaborators}
    (s : Scanner) (w : World) (calls : list (Ctx * FS * string))
    (schedule : list nat) :
  Forall returnedWell (threads (run schedule (start s w calls))).
Proof.
  assert (Forall returnedWell (threads (start s w calls))) as Hstart.
  { cbn [start threads]. apply Forall_fmap, Forall_forall. by intros call _. }
  unfold run. revert Hstart. generalize (start s w calls).
  induction schedule as [|i schedule IH]; intros cfg Hall; [done|].
  cbn [foldl]. by apply IH, runStep_returnedWell.
Qed.

(** X15.  The order in which the [range] visits the mapping only permutes
    the inputs: for any two orders the input sequences are permutations of
    each other and of the one built along the listing of the mapping, and
    every input carries a document the mapping has at the path of the input,
    and the target. *)
Theorem inputs_do_not_depend_on_range_order `{C : Collaborators}
    (target : FS) (m : gmap string (list Doc)) (x1 x2 : Ext) :
  buildInputs target (range_order x1 m) ≡ₚ
    buildInputs target (range_order x2 m) ∧
  buildInputs target (range_order x1 m) ≡ₚ
    buildInputs target (map_to_list m) ∧
  (∀ i, i ∈ buildInputs target (range_order x1 m) →
        ∃ docs, m !! Path i = Some docs ∧ Contents i ∈ docs ∧
                InputFS i = target).
Proof.
  pose proof (range_order_perm x1 m) as H1.
  pose proof (range_order_perm x2 m) as H2.
  split; [|split].
  - apply buildInputs_Permutation. by rewrite H1, H2.
  - by apply buildInputs_Permutation.
  - intros i Hi.
    rewrite (buildInputs_Permutation target _ _ H1) in Hi.
    assert (∀ l : list (string * list Doc),
              i ∈ buildInputs target l →
              ∃ p docs, (p, docs) ∈ l ∧ Path i = p ∧ Contents i ∈ docs ∧
                        InputFS i = target) as Hin.
    { induction l as [|[p docs] l IH]; intros Hl.
      - by apply elem_of_nil in Hl.
      - rewrite buildInputs_cons in Hl. apply elem_of_app in Hl as [Hl|Hl].
        + apply list_elem_of_fmap in Hl as (d & -> & Hd).
          exists p, docs. split; [by left|done].
        + destruct (IH Hl) as (p' & docs' & ? & ?).
          exists p', docs'. split; [by right|done]. }
    destruct (Hin _ Hi) as (p & docs & Hp & <- & Hd & Hfs).
    apply elem_of_map_to_list in Hp. eauto.
Qed.
